(** * emojipedia: the self-describing command registry

    A shallow embedding of the two command-registry implementations of
    gellel/emojipedia: package [cli] (descriptor construction and the usage
    formatter) and package [x] (descriptor construction, the registry map
    and the dispatcher [Runner.Get]).

    Go strings are byte strings and are modelled by [string]; [len] is
    [String.length].  Case mapping and white space cover the ASCII range,
    which is where Go's byte-wise and rune-wise readings agree.  Go's [int]
    is 64 bits wide; every integer below is a length or an index of a value
    held in memory, so no operation wraps and [nat] / [Z] are used
    directly. *)

From Stdlib Require Import ZArith Ascii String List Lia Bool.
From stdpp Require Import base option list gmap strings.

(** ** Panics and standard output *)

Inductive PanicKind :=
| ReadFileError      (* panic(err) after ioutil.ReadFile *)
| IndexOutOfRange    (* slice index out of range *)
| ReflectIndex       (* reflect: Type.In index out of range *)
| NilDereference     (* field access through a nil pointer *)
| TypeAssertion      (* interface conversion to the wrong func type *)
| FuelExhausted.     (* a loop of the model ran out of fuel; never produced *)

Inductive Result (A : Type) :=
| Ok (a : A)
| Panic (p : PanicKind).
Arguments Ok {A} a.
Arguments Panic {A} p.

Global Instance Result_ret : MRet Result := λ A a, Ok a.

Global Instance Result_bind : MBind Result := λ A B k r,
  match r with
  | Ok a => k a
  | Panic p => Panic p
  end.

(** [s[i]] for a slice [s] and an [int] index. *)
Definition slice_index {A} (s : list A) (i : Z) : Result A :=
  if (i <? 0)%Z then Panic IndexOutOfRange
  else match s !! Z.to_nat i with
       | Some a => Ok a
       | None => Panic IndexOutOfRange
       end.

(** Code that also prints: standard output is threaded as the list of lines
    written so far, and a panic keeps what was printed before it. *)
Definition Go (A : Type) : Type := list string → Result A * list string.

Global Instance Go_ret : MRet Go := λ A a out, (Ok a, out).

Global Instance Go_bind : MBind Go := λ A B k m out,
  match m out with
  | (Ok a, out') => k a out'
  | (Panic p, out') => (Panic p, out')
  end.

Definition Println (s : string) : Go unit := λ out, (Ok tt, out ++ [s]).

Definition lift {A} (r : Result A) : Go A := λ out, (r, out).

(** ** Bytes *)

Definition is_upper (c : ascii) : bool :=
  let n := N_of_ascii c in ((65 <=? n) && (n <=? 90))%N.

Definition is_lower (c : ascii) : bool :=
  let n := N_of_ascii c in ((97 <=? n) && (n <=? 122))%N.

Definition to_lower (c : ascii) : ascii :=
  if is_upper c then ascii_of_N (N_of_ascii c + 32) else c.

Definition to_upper (c : ascii) : ascii :=
  if is_lower c then ascii_of_N (N_of_ascii c - 32) else c.

Definition is_space (c : ascii) : bool :=
  let n := N_of_ascii c in ((n =? 32) || ((9 <=? n) && (n <=? 13)))%N.

Definition byte_eqb (a b : ascii) : bool := Ascii.eqb a b.

Definition dot : ascii := "."%char.
Definition slash : ascii := "/"%char.
Definition lparen : ascii := "("%char.
Definition rparen : ascii := ")"%char.
Definition comma : ascii := ","%char.
Definition space : ascii := " "%char.
Definition newline : ascii := "010"%char.
Definition star : ascii := "*"%char.

(** ** Package strings (and the slices of path/filepath and regexp used) *)

Module GoStrings.

Fixpoint map_bytes (f : ascii → ascii) (s : string) : string :=
  match s with
  | EmptyString => EmptyString
  | String c s' => String (f c) (map_bytes f s')
  end.

Definition ToUpper (s : string) : string := map_bytes to_upper s.
Definition ToLower (s : string) : string := map_bytes to_lower s.

(** [strings.Index(s, sep)] for a one-byte separator: the index of its
    first occurrence, or -1. *)
Fixpoint Index (s : string) (sep : ascii) : Z :=
  match s with
  | EmptyString => (-1)%Z
  | String c s' =>
      if byte_eqb c sep then 0%Z
      else let i := Index s' sep in if (i <? 0)%Z then (-1)%Z else (i + 1)%Z
  end.

(** The slice expression [s[n:]], for [0 <= n <= len(s)]. *)
Fixpoint from (n : nat) (s : string) : string :=
  match n, s with
  | O, _ => s
  | S n', String _ s' => from n' s'
  | S _, EmptyString => EmptyString
  end.

(** [strings.Split(s, sep)] for a one-byte separator. *)
Fixpoint Split (s : string) (sep : ascii) : list string :=
  match s with
  | EmptyString => [EmptyString]
  | String c s' =>
      if byte_eqb c sep then EmptyString :: Split s' sep
      else match Split s' sep with
           | t :: ts => String c t :: ts
           | [] => [String c EmptyString]
           end
  end.

(** [strings.Join(elems, sep)]. *)
Fixpoint Join (elems : list string) (sep : string) : string :=
  match elems with
  | [] => EmptyString
  | [e] => e
  | e :: rest => e +:+ sep +:+ Join rest sep
  end.

Fixpoint trim_left (s : string) : string :=
  match s with
  | EmptyString => EmptyString
  | String c s' => if is_space c then trim_left s' else s
  end.

Fixpoint trim_right (s : string) : string :=
  match s with
  | EmptyString => EmptyString
  | String c s' =>
      match trim_right s' with
      | EmptyString => if is_space c then EmptyString else String c EmptyString
      | t => String c t
      end
  end.

Definition TrimSpace (s : string) : string := trim_right (trim_left s).

(** [strings.NewReplacer("[", "", "]", "").Replace]: both bracket bytes
    are deleted. *)
Fixpoint strip_brackets (s : string) : string :=
  match s with
  | EmptyString => EmptyString
  | String c s' =>
      if byte_eqb c "["%char || byte_eqb c "]"%char then strip_brackets s'
      else String c (strip_brackets s')
  end.

(** [strings.Index(value, "*") != -1]. *)
Definition contains_star (s : string) : bool := negb (Index s star =? -1)%Z.

(** The longest prefix of bytes satisfying [p], and the rest. *)
Fixpoint span (p : ascii → bool) (s : string) : string * string :=
  match s with
  | EmptyString => (EmptyString, EmptyString)
  | String c s' =>
      if p c then let '(a, b) := span p s' in (String c a, b)
      else (EmptyString, s)
  end.

Fixpoint last_index (s : string) (p : ascii → bool) : option nat :=
  match s with
  | EmptyString => None
  | String c s' =>
      match last_index s' p with
      | Some i => Some (S i)
      | None => if p c then Some O else None
      end
  end.

Definition is_slash (c : ascii) : bool := byte_eqb c slash.

(** Trailing path separators removed, as the first loop of
    [filepath.Base] does. *)
Fixpoint strip_trailing_slashes (s : string) : string :=
  match s with
  | EmptyString => EmptyString
  | String c s' =>
      match strip_trailing_slashes s' with
      | EmptyString => if is_slash c then EmptyString else String c EmptyString
      | t => String c t
      end
  end.

(** [filepath.Base] on a platform whose separator is the slash and whose
    volume name is empty. *)
Definition Base (path : string) : string :=
  match path with
  | EmptyString => "."
  | _ =>
      let p := strip_trailing_slashes path in
      let p := match last_index p is_slash with
               | Some i => from (S i) p
               | None => p
               end in
      match p with
      | EmptyString => "/"
      | _ => p
      end
  end.

(** The regular expression [\(([^()]+)\)], leftmost match, first capture
    group: from the first opening parenthesis that is followed by one or
    more bytes other than parentheses and then a closing parenthesis, the
    bytes in between.  [FindAllStringSubmatch(s, 1)] is empty exactly
    when this is [None], and [matches[0][1]] is the string otherwise. *)
Definition not_paren (c : ascii) : bool :=
  negb (byte_eqb c lparen || byte_eqb c rparen).

Fixpoint FindParenthesised (s : string) : option string :=
  match s with
  | EmptyString => None
  | String c s' =>
      if byte_eqb c lparen then
        match span not_paren s' with
        | (String b body, String d _) =>
            if byte_eqb d rparen then Some (String b body)
            else FindParenthesised s'
        | _ => FindParenthesised s'
        end
      else FindParenthesised s'
  end.

(** The regular expression [[A-Z]+[^A-Z]*|[^A-Z]+] with
    [FindAllString(s, -1)]: successive leftmost matches.  At an upper-case
    byte the first alternative takes the run of upper-case bytes and the
    run of other bytes after it; elsewhere the second alternative takes
    the run of other bytes.  Every byte belongs to one of the two classes,
    so the matches tile the string; [fuel] bounds their number. *)
Definition not_upper (c : ascii) : bool := negb (is_upper c).

Fixpoint camel_matches (fuel : nat) (s : string) : list string :=
  match fuel with
  | O => []
  | S fuel' =>
      match s with
      | EmptyString => []
      | _ =>
          let '(u, r) := span is_upper s in
          let '(l, r') := span not_upper r in
          (u +:+ l) :: camel_matches fuel' r'
      end
  end.

Definition FindAllCamel (s : string) : list string :=
  camel_matches (String.length s) s.

End GoStrings.

Import GoStrings.

(** ** What reflection and the runtime tell about a function value *)

(** [reflect.Kind]. *)
Inductive Kind :=
| Invalid | Bool | Int | Int8 | Int16 | Int32 | Int64
| Uint | Uint8 | Uint16 | Uint32 | Uint64 | Uintptr
| Float32 | Float64 | Complex64 | Complex128
| Array | Chan | Func | Interface | Map | Pointer | Slice
| String_ | Struct | UnsafePointer.

Definition Kind_String (k : Kind) : string :=
  match k with
  | Invalid => "invalid" | Bool => "bool" | Int => "int" | Int8 => "int8"
  | Int16 => "int16" | Int32 => "int32" | Int64 => "int64"
  | Uint => "uint" | Uint8 => "uint8" | Uint16 => "uint16"
  | Uint32 => "uint32" | Uint64 => "uint64" | Uintptr => "uintptr"
  | Float32 => "float32" | Float64 => "float64"
  | Complex64 => "complex64" | Complex128 => "complex128"
  | Array => "array" | Chan => "chan" | Func => "func"
  | Interface => "interface" | Map => "map" | Pointer => "ptr"
  | Slice => "slice" | String_ => "string" | Struct => "struct"
  | UnsafePointer => "unsafe.Pointer"
  end.

(** A parameter type as the code observes it: [reflect.Type.String()] and
    [reflect.Type.Kind()]. *)
Record RType := { TString : string; TKind : Kind }.

(** A function value [f] as the code observes it:
    [runtime.FuncForPC(p).Name()], [reflect.ValueOf(f).Pointer()],
    [FileLine(p)], [reflect.TypeOf(f).In(i)] for [i < NumIn()], [NumOut()]
    and [IsVariadic()]. *)
Record GoFunc := {
  Symbol : string;
  Entry : Z;
  File : string;
  Line : Z;
  In : list RType;
  NumOut : nat;
  IsVariadic : bool
}.

Definition NumIn (f : GoFunc) : nat := length (In f).

(** [reflect.Type.In(i)] panics outside [0, NumIn()). *)
Definition TypeIn (f : GoFunc) (i : nat) : Result RType :=
  match In f !! i with
  | Some t => Ok t
  | None => Panic ReflectIndex
  end.

(** The files [ioutil.ReadFile] can read, with their contents. *)
Definition FileSystem := string → option string.

(** [ioutil.ReadFile(file)], [bytes.Split(b, "\n")] and [contents[line-1]],
    the text both packages parse parameter names from. *)
Definition SourceLine (fs : FileSystem) (file : string) (line : Z) : Result string :=
  match fs file with
  | None => Panic ReadFileError
  | Some b =>
      let contents := Split b newline in
      slice_index contents (line - 1)
  end.

(** [substrings[0]]. *)
Definition first_of (substrings : list string) : Result string :=
  match substrings with
  | s0 :: _ => Ok s0
  | [] => Panic IndexOutOfRange
  end.

Definition nl : string := String newline EmptyString.

(** ** Package cli *)

Module cli.

Definition lineLength : nat := 79.

Record Argument := {
  Kind_ : Kind;
  Parameter_ : string;
  Pointer_ : Z;
  Position : Z;
  Name : string;
  Slice_ : bool;
  Value : string;
  Varadict : bool
}.

Record Function := {
  FArguments : list Argument;
  F : GoFunc;
  FLine : Z;
  Path : string;
  FPointer : Z;
  FName : string;
  FVaradict : bool
}.

Definition NewArgument (i : nat) (pointer : Z) (parameter : string) (t : GoFunc)
  : Result Argument :=
  properties ← TypeIn t i;
  let value := strip_brackets (TString properties) in
  let slice := if decide (Kind_String (TKind properties) = "slice") then true else false in
  name ← first_of (Split (TrimSpace parameter) space);
  Ok {| Kind_ := TKind properties;
        Parameter_ := parameter;
        Pointer_ := pointer;
        Position := Z.of_nat i;
        Name := name;
        Slice_ := slice;
        Value := value;
        Varadict := IsVariadic t |}.

(** Lines 92-97 and 119: the display name of a raw symbol name. *)
Definition displayName (symbol : string) : string :=
  let name := Base symbol in
  let name := from (Z.to_nat (Index name dot + 1)) name in
  let substrings := FindAllCamel name in
  let name := match substrings with
              | [] => name
              | _ => Join substrings "-"
              end in
  ToLower name.

(** The loop of lines 109-111 over [i = 0 .. NumIn()-1]. *)
Definition build_arguments (pointer : Z) (parameters : list string) (fn : GoFunc)
  : Result (list Argument) :=
  mapM (λ i, match parameters !! i with
             | Some parameter => NewArgument i pointer parameter fn
             | None => Panic IndexOutOfRange
             end) (seq 0 (NumIn fn)).

Definition NewFunction (fs : FileSystem) (fn : GoFunc) : Result Function :=
  let pointer := Entry fn in
  let name := displayName (Symbol fn) in
  substring ← SourceLine fs (File fn) (Line fn);
  arguments ← match FindParenthesised substring with
              | Some m => build_arguments pointer (Split m comma) fn
              | None => Ok []
              end;
  Ok {| FArguments := arguments;
        F := fn;
        FLine := Line fn;
        Path := File fn;
        FPointer := pointer;
        FName := name;
        FVaradict := IsVariadic fn |}.

Definition GetArgumentString (argument : Argument) : string :=
  if Varadict argument then
    Name argument +:+ " [..." +:+ Value argument +:+ "]"
  else if Slice_ argument then
    Name argument +:+ "=[..." +:+ Value argument +:+ "]"
  else
    Name argument +:+ "=<" +:+ Value argument +:+ ">".

Definition GetFunctionString (function : Function) : string :=
  let substrings := map (λ a, ToLower (GetArgumentString a)) (FArguments function) in
  let usage := Join substrings ", " in
  if negb (String.length usage =? 0)%nat then
    FName function +:+ " [" +:+ usage +:+ "]"
  else
    "--" +:+ FName function.

(** One iteration of the loop of [WrapDescription]; the state is
    [(about, cursor)]. *)
Definition wrap_word (st : string * nat) (word : string) : string * nat :=
  let '(about, cursor) := st in
  let cursor := (cursor + String.length word + 1)%nat in
  let about := about +:+ word +:+ " " in
  if (lineLength <=? cursor)%nat then (about +:+ nl, O) else (about, cursor).

Definition WrapDescription (paragraph : string) : string :=
  fst (fold_left wrap_word (Split paragraph space) (EmptyString, O)).

(** [fmt.Sprintf("[%s]", GetFunctionString(function))]. *)
Definition option_of (function : Function) : string :=
  "[" +:+ GetFunctionString function +:+ "]".

(** One iteration of the first loop of [WrapFunction]; the state is
    [paragraphs], never empty, and [i] indexes its last element. *)
Definition wrap_option (offset : nat) (paragraphs : list (list string))
    (function : Function) : list (list string) :=
  let i := (length paragraphs - 1)%nat in
  let option := option_of function in
  let cursor := (String.length (Join (paragraphs !!! i) " ") + offset
                 + String.length option)%nat in
  let '(i, paragraphs) :=
    if (lineLength <=? cursor)%nat then (S i, paragraphs ++ [[]])
    else (i, paragraphs) in
  <[i := (paragraphs !!! i) ++ [option]]> paragraphs.

Definition wrap_paragraphs (offset : nat) (functions : list Function)
  : list (list string) :=
  fold_left (wrap_option offset) functions [[]].

(** The inner loop [for j < offset], which appends one space per turn. *)
Fixpoint padding (offset : nat) : string :=
  match offset with
  | O => EmptyString
  | S j => padding j +:+ " "
  end.

(** One iteration of the second loop of [WrapFunction]. *)
Definition wrap_sentence (offset : nat) (template : string) (sentence : list string)
  : string :=
  let substring := Join sentence " " in
  let substring := nl +:+ " " +:+ padding offset +:+ substring in
  template +:+ substring.

Definition WrapFunction (name : string) (functions : list Function) : string :=
  let prefix := "usage: " +:+ name in
  let offset := String.length prefix in
  let paragraphs := wrap_paragraphs offset functions in
  let first := paragraphs !!! O in
  let paragraphs := drop 1 paragraphs in
  let template := prefix +:+ " [" +:+ Join first " " in
  let template := fold_left (wrap_sentence offset) paragraphs template in
  template +:+ "]".

Definition WrapUse (name description : string) (functions : list Function) : string :=
  WrapDescription description +:+ nl +:+ nl +:+ WrapFunction name functions.

Record Program := {
  Description : string;
  PFunctions : list Function;
  PName : string;
  Use : string
}.

Definition NewProgram (fs : FileSystem) (name description : string)
    (functions : list GoFunc) : Result Program :=
  f ← mapM (NewFunction fs) functions;
  Ok {| Description := description;
        PFunctions := f;
        PName := name;
        Use := WrapUse name description f |}.

End cli.

(** ** Package x *)

Module x.

(** [*Argument] is [option Argument], [None] being nil. *)
Record Argument := {
  Address : Z;
  Kind_ : Kind;
  Parameter_ : string;
  Pointer_ : bool;
  Position : Z;
  Name : string;
  Slice_ : bool;
  Value : string;
  Variadic : bool
}.

Record Arg := { Argument_ : option Argument }.

Definition Arguments := list (option Argument).

Record Deconstruct := {
  DParameters : list string;
  DPointer : Z;
  DName : string;
  DType : GoFunc;
  DVariadic : bool
}.

Record Function := {
  FArguments : Arguments;
  Empty : bool;
  F : GoFunc;
  Length : Z;
  FPointer : Z;
  FName : string;
  FVariadic : bool
}.

Record Runner := { Functions : gmap string Function }.

Definition NewArg (argument : option Argument) : Arg :=
  {| Argument_ := argument |}.

Definition NewArgument (name value : string) (position : Z) (pointer : Z)
    (variadic : bool) (kind : Kind) : Argument :=
  {| Address := pointer;
     Kind_ := kind;
     Parameter_ := EmptyString;
     Pointer_ := negb (Index value star =? -1)%Z;
     Position := position;
     Slice_ := if decide (Kind_String kind = "slice") then true else false;
     Name := name;
     Value := strip_brackets value;
     Variadic := variadic |}.

(** The [range] loop of [NewArguments], from index [i] on. *)
Fixpoint NewArguments_from (i : nat) (reflection : GoFunc) (pointer : Z)
    (variadic : bool) (parameters : list string) : Result Arguments :=
  match parameters with
  | [] => Ok []
  | parameter :: rest =>
      in_ ← TypeIn reflection i;
      name ← first_of (Split parameter space);
      let argument :=
        NewArgument name (TString in_) (Z.of_nat i) pointer variadic (TKind in_) in
      arguments ← NewArguments_from (S i) reflection pointer variadic rest;
      Ok (Some argument :: arguments)
  end.

Definition NewArguments (reflection : GoFunc) (pointer : Z) (variadic : bool)
    (parameters : list string) : Result Arguments :=
  NewArguments_from 0 reflection pointer variadic parameters.

Definition NewParameters (fs : FileSystem) (file : string) (line : Z)
  : Result (list string) :=
  substring ← SourceLine fs file line;
  match FindParenthesised substring with
  | Some m => Ok (Split m comma)
  | None => Ok []
  end.

(** The loop [for i > -1] of [NewDeconstruct]: each turn drops the name's
    bytes up to and including its first dot. *)
Fixpoint strip_qualifiers (fuel : nat) (name : string) (i : Z) : option string :=
  if (-1 <? i)%Z then
    match fuel with
    | O => None
    | S fuel' =>
        let name := from (Z.to_nat (i + 1)) name in
        strip_qualifiers fuel' name (Index name dot)
    end
  else Some name.

Definition NewDeconstruct (fs : FileSystem) (f : GoFunc) : Result Deconstruct :=
  let pointer := Entry f in
  let variadic := IsVariadic f in
  let name := Base (Symbol f) in
  name ← match strip_qualifiers (String.length name) name (Index name dot) with
         | Some name => Ok name
         | None => Panic FuelExhausted
         end;
  parameters ← NewParameters fs (File f) (Line f);
  Ok {| DParameters := parameters;
        DPointer := pointer;
        DName := name;
        DType := f;
        DVariadic := variadic |}.

Definition NewFunction (fs : FileSystem) (f : GoFunc) : Result Function :=
  deconstruct ← NewDeconstruct fs f;
  arguments ← NewArguments (DType deconstruct) (DPointer deconstruct)
                (DVariadic deconstruct) (DParameters deconstruct);
  let length := Z.of_nat (length arguments) in
  Ok {| FArguments := arguments;
        Empty := (length =? 0)%Z;
        F := f;
        Length := length;
        FPointer := DPointer deconstruct;
        FName := DName deconstruct;
        FVariadic := DVariadic deconstruct |}.

(** The loop of [NewFunctions]: each function is built and assigned to
    the map under its upper-cased name. *)
Fixpoint register (fs : FileSystem) (functions : gmap string Function)
    (f : list GoFunc) : Result (gmap string Function) :=
  match f with
  | [] => Ok functions
  | x :: rest =>
      n ← NewFunction fs x;
      register fs (<[ToUpper (FName n) := n]> functions) rest
  end.

Definition NewFunctions (fs : FileSystem) (f : list GoFunc)
  : Result (gmap string Function) :=
  register fs ∅ f.

Definition NewRunner (fs : FileSystem) (f : list GoFunc) : Result Runner :=
  functions ← NewFunctions fs f;
  Ok {| Functions := functions |}.

(** [Argument.Is] on a receiver that may be nil. *)
Definition Argument_Is (argument : option Argument) (key : string) : Go bool :=
  match argument with
  | None => lift (Panic NilDereference)
  | Some a =>
      _ ← Println (Value a);
      mret (bool_decide (ToUpper (Value a) = ToUpper key))
  end.

Definition Arg_Is (arg : Arg) (key : string) : Go bool :=
  match Argument_ arg with
  | None => mret false
  | Some a => Argument_Is (Some a) key
  end.

Definition Bounds (arguments : Arguments) (i : Z) : bool :=
  (-1 <? i)%Z && (i <? Z.of_nat (length arguments))%Z.

Definition Get (arguments : Arguments) (i : Z) : Result (option Argument * bool) :=
  let ok := Bounds arguments i in
  if ok then
    argument ← slice_index arguments i;
    Ok (argument, ok)
  else Ok (None, ok).

Definition Arguments_Length (arguments : Arguments) : Z :=
  Z.of_nat (length arguments).

(** [Peek] returns a pointer to a fresh [Arg]; [Some] is that pointer. *)
Definition Peek (arguments : Arguments) (i : Z) : Result (option Arg) :=
  '(argument, ok) ← Get arguments i;
  if ok : bool then Ok (Some {| Argument_ := argument |})
  else Ok (Some {| Argument_ := None |}).

Definition Functions_Get (functions : gmap string Function) (key : string)
  : option Function * bool :=
  match functions !! ToUpper key with
  | Some function => (Some function, true)
  | None => (None, false)
  end.

Definition Functions_Has (functions : gmap string Function) (key : string) : bool :=
  snd (Functions_Get functions key).

Definition Functions_Fetch (functions : gmap string Function) (key : string)
  : option Function :=
  fst (Functions_Get functions key).

Definition Contains (functions : gmap string Function) (function : Function) : bool :=
  Functions_Has functions (FName function).

(** The dynamic type of [f] is [func(...interface{})]: one variadic
    parameter of type [[]interface {}] and no result. *)
Definition is_variadic_any (f : GoFunc) : bool :=
  IsVariadic f
  && match In f with
     | [t] => bool_decide (TString t = "[]interface {}")
     | _ => false
     end
  && (NumOut f =? 0)%nat.

(** [function.F.(func(i ...interface{}))]. *)
Definition assert_variadic_any (f : GoFunc) : Result GoFunc :=
  if is_variadic_any f then Ok f else Panic TypeAssertion.

(** [Runner.Get].  The result [ok] is bound by the lookup on line 227.
    The [if] on line 229 declares [argument] and a second [ok] in its own
    scope; the assignment of line 230 is to that one, called [ok'] here. *)
Definition Runner_Get (runner : Runner) (key : string)
  : Go (option GoFunc * bool) :=
  let '(function, ok) := Functions_Get (Functions runner) key in
  f ← (if ok then
         match function with
         | None => lift (Panic NilDereference)
         | Some function =>
             if FVariadic function then
               '(argument, ok') ← lift (Get (FArguments function) 0);
               if ok' : bool then
                 ok' ← Argument_Is argument "interface";
                 if ok' : bool then
                   f ← lift (assert_variadic_any (F function));
                   mret (Some f)
                 else mret None
               else mret None
             else mret None
         end
       else mret None);
  mret (f, ok).

(** The [Set] methods overwrite their receiver with a freshly built value;
    a panic of the constructor comes before the assignment. *)
Definition Function_Set (function : Function) (fs : FileSystem) (f : GoFunc)
  : Result Function :=
  NewFunction fs f.

Definition Functions_Set (functions : gmap string Function) (fs : FileSystem)
    (f : list GoFunc) : Result (gmap string Function) :=
  NewFunctions fs f.

Definition Runner_Set (runner : Runner) (fs : FileSystem) (f : list GoFunc)
  : Result Runner :=
  NewRunner fs f.

End x.

(** ** Package get *)

Module get.

Section Programs.

(** [*manifest.Manifest], a type of a package that is not among the
    sources. *)
Variable Manifest : Type.

(** The keys of the table [programs]; the programs bound to them belong to
    packages that are not among the sources. *)
Variable programs : gset string.







End Programs.

End get.

(** ** Functions and sources the properties are tried on *)

Definition t_string : RType := {| TString := "string"; TKind := String_ |}.
Definition t_bool : RType := {| TString := "bool"; TKind := Bool |}.
Definition t_int : RType := {| TString := "int"; TKind := Int |}.
Definition t_any_slice : RType := {| TString := "[]interface {}"; TKind := Slice |}.

Definition one_file (path contents : string) : FileSystem :=
  λ p, if decide (p = path) then Some contents else None.

Definition Build_src : string :=
  "package main" +:+ nl +:+ nl +:+ "func Build(target string, force bool) {" +:+ nl +:+ "}" +:+ nl.

Definition Build_fn : GoFunc :=
  {| Symbol := "main.Build"; Entry := 4198400; File := "/src/main.go"; Line := 3;
     In := [t_string; t_bool]; NumOut := 0; IsVariadic := false |}.

Definition Run2_src : string :=
  "package main" +:+ nl +:+ nl +:+ "func Run(a int, opts ...interface{}) {" +:+ nl +:+ "}" +:+ nl.

Definition Run2_fn : GoFunc :=
  {| Symbol := "main.Run"; Entry := 4198400; File := "/src/main.go"; Line := 3;
     In := [t_int; t_any_slice]; NumOut := 0; IsVariadic := true |}.

Definition Run1_src : string :=
  "package main" +:+ nl +:+ nl +:+ "func Run(opts ...interface{}) {" +:+ nl +:+ "}" +:+ nl.

Definition Run1_fn : GoFunc :=
  {| Symbol := "main.Run"; Entry := 4198400; File := "/src/main.go"; Line := 3;
     In := [t_any_slice]; NumOut := 0; IsVariadic := true |}.

(** The method expression [Server.Start] of package main, for a method
    declared without parameters: its symbol holds two dots and its one
    reflected parameter is the receiver. *)
Definition Start_symbol : string := "github.com/gellel/emojipedia/main.Server.Start".

Definition Start_src : string :=
  "package main" +:+ nl +:+ nl +:+ "func (s Server) Start() {" +:+ nl +:+ "}" +:+ nl.

Definition Start_fn : GoFunc :=
  {| Symbol := Start_symbol; Entry := 4198400; File := "/src/main.go"; Line := 3;
     In := [{| TString := "main.Server"; TKind := Struct |}]; NumOut := 0;
     IsVariadic := false |}.

Definition main_go (src : string) : FileSystem := one_file "/src/main.go" src.

(** Two functions of one file whose names differ in case only. *)
Definition Runs_src : string :=
  "package main" +:+ nl +:+ nl +:+ "func Run(opts ...interface{}) {" +:+ nl +:+ "}"
  +:+ nl +:+ nl +:+ "func run(a int) {" +:+ nl +:+ "}" +:+ nl.

Definition run_lower_fn : GoFunc :=
  {| Symbol := "main.run"; Entry := 4198656; File := "/src/main.go"; Line := 6;
     In := [t_int]; NumOut := 0; IsVariadic := false |}.

(** The variadic-slot invariant as the specification words it, over the
    flags of a descriptor's arguments in order: at most one argument is
    flagged, and a flagged argument is the last one. *)
Definition only_last_flagged (flags : list bool) : Prop :=
  length (filter (λ b, b = true) flags) ≤ 1
  ∧ ∀ i, flags !! i = Some true → S i = length flags.

Definition cli_flags (fn : cli.Function) : list bool :=
  map cli.Varadict (cli.FArguments fn).

(** A nil argument carries no flag. *)
Definition x_flags (fn : x.Function) : list bool :=
  map (λ a, from_option x.Variadic false a) (x.FArguments fn).

(** The comma-separated segments both packages parse from a source line;
    [x.NewParameters] returns them, [cli.NewFunction] indexes them. *)
Definition parsed_parameters (line : string) : list string :=
  match FindParenthesised line with
  | Some m => Split m comma
  | None => []
  end.

(** A declaration whose parameter list continues on the next lines. *)
Definition Multiline_src : string :=
  "package main" +:+ nl +:+ nl +:+ "func Build(" +:+ nl +:+ "	target string," +:+ nl
  +:+ "	force bool," +:+ nl +:+ ") {" +:+ nl +:+ "}" +:+ nl.

Definition Multiline_fn : GoFunc :=
  {| Symbol := "main.Build"; Entry := 4198400; File := "/src/main.go"; Line := 3;
     In := [t_string; t_bool]; NumOut := 0; IsVariadic := false |}.

(** A declaration with a parenthesised type inside its parameter list. *)
Definition Callback_src : string :=
  "package main" +:+ nl +:+ nl +:+ "func Each(visit func(int) error, n int) {" +:+ nl
  +:+ "}" +:+ nl.

Definition Callback_fn : GoFunc :=
  {| Symbol := "main.Each"; Entry := 4198400; File := "/src/main.go"; Line := 3;
     In := [{| TString := "func(int) error"; TKind := Func |}; t_int]; NumOut := 0;
     IsVariadic := false |}.

(** A one-line function whose body holds the first parenthesised list. *)
Definition Oneline_src : string :=
  "package main" +:+ nl +:+ nl +:+ "func Zero() { report(1, 2) }" +:+ nl.

Definition Oneline_fn : GoFunc :=
  {| Symbol := "main.Zero"; Entry := 4198400; File := "/src/main.go"; Line := 3;
     In := []; NumOut := 0; IsVariadic := false |}.

(** ** The usage document, line by line *)

(** The lines of a rendered block. *)
Definition lines (block : string) : list string := Split block newline.

(** A line of the description block made of the words [g]: every word is
    followed by one space. *)
Fixpoint words_line (g : list string) : string :=
  match g with
  | [] => EmptyString
  | w :: g' => w +:+ " " +:+ words_line g'
  end.

(** The first line of the option block made of the option strings [p],
    and a continuation line, both before the closing bracket. *)
Definition first_line (name : string) (p : list string) : string :=
  "usage: " +:+ name +:+ " [" +:+ Join p " ".

Definition next_line (offset : nat) (p : list string) : string :=
  " " +:+ cli.padding offset +:+ Join p " ".

Fixpoint leading_spaces (s : string) : nat :=
  match s with
  | EmptyString => O
  | String c s' => if byte_eqb c space then S (leading_spaces s') else O
  end.

(** The text of the lines already broken: each is followed by a newline. *)
Fixpoint broken_lines (groups : list (list string)) : string :=
  match groups with
  | [] => EmptyString
  | g :: groups' => words_line g +:+ nl +:+ broken_lines groups'
  end.

(** A broken line exceeds the budget by its last word only. *)
Definition broken_by_last_word (g : list string) : Prop :=
  ∃ g' w, g = g' ++ [w]
          ∧ String.length (words_line g') < cli.lineLength
          ∧ cli.lineLength ≤ String.length (words_line g).

(** A paragraph of the option block fits: it holds at most one option
    string, or its option strings joined by single spaces stay within the
    budget after the prefix offset. *)
Definition fits (offset : nat) (p : list string) : Prop :=
  2 ≤ length p → offset + String.length (Join p " ") ≤ cli.lineLength.

Definition occurs_in (t line : string) : Prop :=
  ∃ before after, line = before +:+ t +:+ after.

(** The line bound as the specification words it, the exception read as
    widely as it can be: a line may exceed 79 bytes only if a token that
    is itself longer than 79 bytes occurs in it. *)
Definition within_budget (tokens : list string) (line : string) : Prop :=
  String.length line ≤ 79
  ∨ ∃ t, t ∈ tokens ∧ 79 < String.length t ∧ occurs_in t line.

Definition usage_lines_within_budget (name description : string)
    (functions : list cli.Function) : Prop :=
  ∀ line, line ∈ lines (cli.WrapUse name description functions) →
    within_budget (Split description space ++ map cli.option_of functions) line.

(** The shape of the option block as the specification words it: the
    first line starts with the prefix and an opening bracket, every later
    line is indented by as many spaces as the prefix [usage: name] is
    long, and the block ends with a closing bracket. *)
Definition hanging_indent_at_offset (name block : string) : Prop :=
  (∃ rest, block = "usage: " +:+ name +:+ " [" +:+ rest)
  ∧ (∀ line, line ∈ drop 1 (lines block) →
       leading_spaces line = String.length ("usage: " +:+ name))
  ∧ ∃ init, block = init +:+ "]".

(** The descriptor [cli.NewFunction] builds for a function without
    parameters, declared on line [line] of /src/main.go. *)
Definition bare (symbol : string) (entry line : Z) : cli.Function :=
  {| cli.FArguments := [];
     cli.F := {| Symbol := symbol; Entry := entry; File := "/src/main.go";
                 Line := line; In := []; NumOut := 0; IsVariadic := false |};
     cli.FLine := line;
     cli.Path := "/src/main.go";
     cli.FPointer := entry;
     cli.FName := cli.displayName symbol;
     cli.FVaradict := false |}.

Definition list_names : cli.Function :=
  bare "main.ListEverySubcategoryWithItsEmojiNames" 4198400 3.

Definition remove_names : cli.Function :=
  bare "main.RemoveEverySubcategoryWithItsEmojiNames" 4198656 6.

Definition about_emojipedia : string :=
  "emojipedia collects the unicode emoji charts and keeps categories, subcategories and keywords as local files".

(** Every byte of [s] satisfies [p]. *)
Fixpoint all_bytes (p : ascii → bool) (s : string) : bool :=
  match s with
  | EmptyString => true
  | String c s' => p c && all_bytes p s'
  end.

Definition not_slash (c : ascii) : bool := negb (is_slash c).

Definition not_dot (c : ascii) : bool := negb (byte_eqb c dot).

Definition is_dot (c : ascii) : bool := byte_eqb c dot.

(** What follows the last dot of a name; the name itself when it has no
    dot. *)
Definition after_last_dot (name : string) : string :=
  match last_index name is_dot with
  | Some i => from (S i) name
  | None => name
  end.

(** The display name as the specification words it: everything up to and
    including the last dot of the base name is stripped, the rest is split
    at its upper-case boundaries, joined with hyphens and lower-cased. *)
Definition spec_displayName (symbol : string) : string :=
  let name := after_last_dot (Base symbol) in
  let substrings := FindAllCamel name in
  ToLower (match substrings with
           | [] => name
           | _ => Join substrings "-"
           end).

(** The registry key of a descriptor. *)
Definition key_of (fn : x.Function) : string := ToUpper (x.FName fn).

Definition no_brackets (c : ascii) : bool :=
  negb (byte_eqb c "["%char || byte_eqb c "]"%char).

Definition not_space (c : ascii) : bool := negb (byte_eqb c space).

Definition not_comma (c : ascii) : bool := negb (byte_eqb c comma).

(** A function whose source file is not there to be read. *)
Definition Gone_fn : GoFunc :=
  {| Symbol := "main.Gone"; Entry := 4198912; File := "/src/gone.go"; Line := 3;
     In := []; NumOut := 0; IsVariadic := false |}.

(** A function said to start on a line its file does not have. *)
Definition Beyond_fn : GoFunc :=
  {| Symbol := "main.Build"; Entry := 4198400; File := "/src/main.go"; Line := 40;
     In := [t_string; t_bool]; NumOut := 0; IsVariadic := false |}.

(** A hyphen before every upper-case byte that follows a byte which is
    not upper-case, and nowhere else. *)
Fixpoint hyphenate (s : string) : string :=
  match s with
  | EmptyString => EmptyString
  | String c s' =>
      match s' with
      | String d _ =>
          if not_upper c && is_upper d then String c (String "-"%char (hyphenate s'))
          else String c (hyphenate s')
      | EmptyString => String c EmptyString
      end
  end.

(** The function can be built into a descriptor of package cli. *)
Definition builds_in_cli (fs : FileSystem) (f : GoFunc) : Prop :=
  ∃ fn, cli.NewFunction fs f = Ok fn.

(** The function can be built into a descriptor of package x. *)
Definition builds_in (fs : FileSystem) (f : GoFunc) : Prop :=
  ∃ fn, x.NewFunction fs f = Ok fn.

(** A string with its newline bytes deleted. *)
Fixpoint delete_newlines (s : string) : string :=
  match s with
  | EmptyString => EmptyString
  | String c s' =>
      if byte_eqb c newline then delete_newlines s'
      else String c (delete_newlines s')
  end.

(** * Properties *)

(** ** The library functions on examples *)

Example Base_symbol :
  Base "github.com/gellel/emojipedia/cli.NewFunction" = "cli.NewFunction".
Proof. reflexivity. Qed.

Example Base_slashes : Base "//" = "/" ∧ Base "" = "." ∧ Base "a/b//" = "b".
Proof. repeat split; reflexivity. Qed.

Example Split_commas : Split "target string, force bool" comma
                       = ["target string"; " force bool"].
Proof. reflexivity. Qed.

Example Split_empty : Split "" comma = [""] ∧ Split "a,,b," comma = ["a"; ""; "b"; ""].
Proof. split; reflexivity. Qed.

Example FindParenthesised_decl :
  FindParenthesised "func Build(target string, force bool) {"
  = Some "target string, force bool"
  ∧ FindParenthesised "func ListAll() {" = None
  ∧ FindParenthesised "func f(g(), (a int)) (b) {" = Some "a int".
Proof. repeat split; reflexivity. Qed.

Example FindAllCamel_names :
  FindAllCamel "ListAll" = ["List"; "All"]
  ∧ FindAllCamel "getHTTPServer2x" = ["get"; "HTTPServer2x"]
  ∧ FindAllCamel "" = [].
Proof. repeat split; reflexivity. Qed.

Example TrimSpace_ex : TrimSpace "  force bool " = "force bool".
Proof. reflexivity. Qed.

Example displayName_ListAll : cli.displayName "main.ListAll" = "list-all".
Proof. reflexivity. Qed.

(** ** Indexed access into an argument collection *)

Lemma Bounds_spec (arguments : x.Arguments) (i : Z) :
  x.Bounds arguments i = true ↔ (0 ≤ i < Z.of_nat (length arguments))%Z.
Proof.
  unfold x.Bounds. rewrite andb_true_iff, !Z.ltb_lt. lia.
Qed.

Lemma slice_index_in_range {A} (s : list A) (i : Z) :
  (0 ≤ i < Z.of_nat (length s))%Z →
  ∃ a, s !! Z.to_nat i = Some a ∧ slice_index s i = Ok a.
Proof.
  intros Hi. unfold slice_index.
  destruct (Z.ltb_spec i 0) as [?|_]; [lia|].
  destruct (s !! Z.to_nat i) as [a|] eqn:E.
  - by exists a.
  - apply lookup_ge_None in E. lia.
Qed.

(** C10. [Get] and [Peek] are total over every [int] index: out of range
    [Get] answers [(nil, false)], in range it answers the i-th element and
    [true]; [Peek] always answers a non-nil [Arg], and the [Arg] of an
    out-of-range [Peek] answers [false] to [Is] for every key, printing
    nothing.  No index makes either of them panic. *)
Theorem C10_indexed_access_total (arguments : x.Arguments) (i : Z) :
  ((i < 0 ∨ Z.of_nat (length arguments) ≤ i)%Z →
     x.Get arguments i = Ok (None, false))
  ∧ ((0 ≤ i < Z.of_nat (length arguments))%Z →
     ∃ a, arguments !! Z.to_nat i = Some a ∧ x.Get arguments i = Ok (a, true))
  ∧ (∃ arg, x.Peek arguments i = Ok (Some arg)
       ∧ ((i < 0 ∨ Z.of_nat (length arguments) ≤ i)%Z →
          ∀ key out, x.Arg_Is arg key out = (Ok false, out))).
Proof.
  assert (Hout : (i < 0 ∨ Z.of_nat (length arguments) ≤ i)%Z →
                 x.Get arguments i = Ok (None, false)).
  { intros Hi. unfold x.Get.
    destruct (x.Bounds arguments i) eqn:E; [|done].
    apply Bounds_spec in E. lia. }
  assert (Hin : (0 ≤ i < Z.of_nat (length arguments))%Z →
                ∃ a, arguments !! Z.to_nat i = Some a
                     ∧ x.Get arguments i = Ok (a, true)).
  { intros Hi. unfold x.Get.
    destruct (slice_index_in_range arguments i Hi) as (a & Ha & Hs).
    exists a. split; [done|].
    apply Bounds_spec in Hi. rewrite Hi, Hs. done. }
  split; [done|]. split; [done|].
  destruct (decide (0 ≤ i < Z.of_nat (length arguments))%Z) as [Hi|Hi].
  - destruct (Hin Hi) as (a & _ & Hg).
    exists {| x.Argument_ := a |}. split.
    + unfold x.Peek. rewrite Hg. done.
    + intros ?. lia.
  - exists {| x.Argument_ := None |}. split.
    + unfold x.Peek. rewrite Hout by lia. done.
    + intros _ key out. done.
Qed.

Lemma C10_indexed_access_total_witness :
  x.Get [None; None] 5 = Ok (None, false)
  ∧ (∃ a, [None; None] !! Z.to_nat 1 = Some a ∧ x.Get [None; None] 1 = Ok (a, true))
  ∧ (∃ arg, x.Peek [None; None] (-1) = Ok (Some arg)
       ∧ ∀ key out, x.Arg_Is arg key out = (Ok false, out)).
Proof.
  split; [|split].
  - apply (C10_indexed_access_total [None; None] 5). simpl. lia.
  - apply (C10_indexed_access_total [None; None] 1). simpl. lia.
  - destruct (C10_indexed_access_total [None; None] (-1)) as (_ & _ & arg & Hp & Hi).
    exists arg. split; [exact Hp|]. apply Hi. lia.
Defined.

(** ** The example of the specification: [func Build(target string, force bool)] *)

(** C9. A function whose symbol is [main.Build], declared on the source
    line [func Build(target string, force bool) {] with reflected
    parameter types [string] and [bool], is built by [cli.NewFunction]
    into a descriptor with two arguments named [target] and [force], and
    [GetFunctionString] renders it as
    [build [target=<string>, force=<bool>]]. *)
Theorem C9_Build_option_string (fs : FileSystem) (f : GoFunc) :
  Symbol f = "main.Build" →
  In f = [t_string; t_bool] →
  IsVariadic f = false →
  SourceLine fs (File f) (Line f) = Ok "func Build(target string, force bool) {" →
  ∃ fn, cli.NewFunction fs f = Ok fn
        ∧ length (cli.FArguments fn) = 2
        ∧ map cli.Name (cli.FArguments fn) = ["target"; "force"]
        ∧ cli.GetFunctionString fn = "build [target=<string>, force=<bool>]".
Proof.
  destruct f as [symbol entry file line ins nout variadic]; simpl.
  intros -> -> -> Hsrc.
  unfold cli.NewFunction; simpl. rewrite Hsrc.
  eexists. split; [reflexivity|]. repeat split.
Qed.

Lemma C9_Build_option_string_witness :
  ∃ fn, cli.NewFunction (main_go Build_src) Build_fn = Ok fn
        ∧ length (cli.FArguments fn) = 2
        ∧ map cli.Name (cli.FArguments fn) = ["target"; "force"]
        ∧ cli.GetFunctionString fn = "build [target=<string>, force=<bool>]".
Proof.
  apply (C9_Build_option_string (main_go Build_src) Build_fn); reflexivity.
Defined.

(** Package x splits a parameter segment without trimming it, so the name
    of every parameter after the first is empty there. *)
Example x_Build_names :
  ∃ fn, x.NewFunction (main_go Build_src) Build_fn = Ok fn
        ∧ map (λ a, x.Name <$> a) (x.FArguments fn) = [Some "target"; Some ""].
Proof. eexists. split; reflexivity. Qed.

(** ** The dispatcher *)

(** The [ok] that [Runner.Get] returns is the one of the registry lookup,
    whatever the gate decides. *)
Lemma Runner_Get_ok_is_lookup (runner : x.Runner) (key : string) (out out' : list string)
    (f : option GoFunc) (ok : bool) :
  x.Runner_Get runner key out = (Ok (f, ok), out') →
  ok = snd (x.Functions_Get (x.Functions runner) key).
Proof.
  unfold x.Runner_Get.
  destruct (x.Functions_Get (x.Functions runner) key) as [function ok0]; simpl.
  unfold mbind, Go_bind, mret, Go_ret.
  match goal with |- context [match ?m out with _ => _ end] => destruct (m out) as [[g|p] o] end.
  - by intros [= _ <- _].
  - done.
Qed.

(** C1. [func Run(a int, opts ...interface{})] is registered under [RUN]
    and its parameter list is not a single variadic slot; the registry
    lookup answers [ok = true], and so does [Runner.Get], with a nil
    callable: the gate's verdict never reaches the returned [ok]. *)
Theorem C1_dispatch_returns_ok_true :
  ∃ runner fn,
    x.NewRunner (main_go Run2_src) [Run2_fn] = Ok runner
    ∧ x.Functions_Get (x.Functions runner) "run" = (Some fn, true)
    ∧ x.is_variadic_any (x.F fn) = false
    ∧ x.Runner_Get runner "run" [] = (Ok (None, true), ["int"]).
Proof.
  eexists _, _. split; [reflexivity|]. split; [by vm_compute|].
  split; by vm_compute.
Qed.

(** The same happens for a function that is not variadic at all. *)
Example dispatch_Build_ok_true :
  ∃ runner,
    x.NewRunner (main_go Build_src) [Build_fn] = Ok runner
    ∧ x.Runner_Get runner "build" [] = (Ok (None, true), []).
Proof. eexists. split; [reflexivity|]. by vm_compute. Qed.

(** The type string of [[]interface{}] is [[]interface {}]; without its
    brackets it is [interface {}], which is not [interface], so the
    single-slot function gets no callable either. *)
Example dispatch_Run1 :
  ∃ runner,
    x.NewRunner (main_go Run1_src) [Run1_fn] = Ok runner
    ∧ x.Runner_Get runner "run" [] = (Ok (None, true), ["interface {}"]).
Proof. eexists. split; [reflexivity|]. by vm_compute. Qed.

(** ** The registry *)

Lemma register_app (fs : FileSystem) (functions : gmap string x.Function)
    (l1 l2 : list GoFunc) :
  x.register fs functions (l1 ++ l2)
  = (m ← x.register fs functions l1; x.register fs m l2).
Proof.
  revert functions. induction l1 as [|f l1 IH]; intros functions; simpl; [done|].
  destruct (x.NewFunction fs f) as [n|p]; simpl; [apply IH|done].
Qed.

Lemma entries_under_key {V} (m : gmap string V) (key : string) (v : V) :
  m !! key = Some v →
  length (filter (λ kv, kv.1 = key) (map_to_list m)) = 1.
Proof.
  intros Hm.
  rewrite <- (insert_delete_id m key v Hm).
  rewrite map_to_list_insert by apply lookup_delete_eq.
  rewrite filter_cons_True by done. simpl. f_equal.
  destruct (filter _ (map_to_list (delete key m))) as [|[k w] rest] eqn:E; [done|].
  assert (Hin : (k, w) ∈ filter (λ kv : string * V, kv.1 = key)
                          (map_to_list (delete key m))).
  { rewrite E. apply list_elem_of_here. }
  apply list_elem_of_filter in Hin as [Hk Hin]. simpl in Hk. subst k.
  apply elem_of_map_to_list in Hin. by rewrite lookup_delete_eq in Hin.
Qed.

(** C5. When two functions whose names upper-case to the same key are
    registered one after the other, the registry holds the second one's
    descriptor under that key, and exactly one entry under it; the keys of
    a registry are pairwise distinct.  Registering just the two leaves a
    registry of that single entry. *)
Theorem C5_last_registration_wins (fs : FileSystem) (f1 f2 : GoFunc)
    (fn1 fn2 : x.Function) :
  x.NewFunction fs f1 = Ok fn1 →
  x.NewFunction fs f2 = Ok fn2 →
  ToUpper (x.FName fn1) = ToUpper (x.FName fn2) →
  x.NewFunctions fs [f1; f2] = Ok {[ ToUpper (x.FName fn2) := fn2 ]}
  ∧ ∀ (before : list GoFunc) (functions : gmap string x.Function),
      x.NewFunctions fs (before ++ [f1; f2]) = Ok functions →
      functions !! ToUpper (x.FName fn2) = Some fn2
      ∧ length (filter (λ kv, kv.1 = ToUpper (x.FName fn2)) (map_to_list functions)) = 1
      ∧ NoDup (map_to_list functions).*1.
Proof.
  intros H1 H2 Hk. split.
  - unfold x.NewFunctions. simpl. rewrite H1. simpl. rewrite H2. simpl.
    rewrite Hk, insert_insert_eq. done.
  - intros before functions. unfold x.NewFunctions. rewrite register_app.
    destruct (x.register fs ∅ before) as [m|p]; simpl; [|done].
    rewrite H1. simpl. rewrite H2. simpl. intros [= <-].
    assert (Hl : <[ToUpper (x.FName fn2):=fn2]> (<[ToUpper (x.FName fn1):=fn1]> m)
                 !! ToUpper (x.FName fn2) = Some fn2) by apply lookup_insert_eq.
    split; [done|]. split; [by eapply entries_under_key|].
    apply NoDup_fst_map_to_list.
Qed.

Lemma C5_last_registration_wins_witness :
  ∃ fn2, x.NewFunction (main_go Runs_src) run_lower_fn = Ok fn2
         ∧ x.FName fn2 = "run"
         ∧ x.NewFunctions (main_go Runs_src) [Run1_fn; run_lower_fn]
           = Ok {[ "RUN" := fn2 ]}.
Proof.
  eexists. split; [reflexivity|]. split; [reflexivity|].
  exact (proj1 (C5_last_registration_wins (main_go Runs_src) Run1_fn run_lower_fn
                  _ _ eq_refl eq_refl eq_refl)).
Defined.

(** ** The variadic flag of arguments *)

Lemma mapM_Ok_Forall {A B} (g : A → Result B) (P : B → Prop) (l : list A) (bs : list B) :
  (∀ a b, g a = Ok b → P b) →
  mapM g l = Ok bs → Forall P bs.
Proof.
  intros Hg. revert bs. induction l as [|a l IH]; intros bs; simpl.
  - intros [= <-]. constructor.
  - destruct (g a) as [b|p] eqn:Ea; simpl; [|done].
    destruct (mapM g l) as [bs'|p]; simpl; [|done].
    intros [= <-]. constructor; eauto.
Qed.

Lemma mapM_Ok_length {A B} (g : A → Result B) (l : list A) (bs : list B) :
  mapM g l = Ok bs → length bs = length l.
Proof.
  revert bs. induction l as [|a l IH]; intros bs; simpl.
  - by intros [= <-].
  - destruct (g a) as [b|p]; simpl; [|done].
    destruct (mapM g l) as [bs'|p]; simpl; [|done].
    intros [= <-]. simpl. f_equal. by apply IH.
Qed.

Lemma cli_NewArgument_flag (i : nat) (pointer : Z) (parameter : string) (t : GoFunc)
    (a : cli.Argument) :
  cli.NewArgument i pointer parameter t = Ok a → cli.Varadict a = IsVariadic t.
Proof.
  unfold cli.NewArgument.
  destruct (TypeIn t i) as [properties|p]; simpl; [|done].
  destruct (first_of _) as [name|p]; simpl; [|done].
  by intros [= <-].
Qed.

Lemma cli_flags_uniform (fs : FileSystem) (f : GoFunc) (fn : cli.Function) :
  cli.NewFunction fs f = Ok fn →
  cli.FVaradict fn = IsVariadic f ∧ Forall (λ b, b = IsVariadic f) (cli_flags fn).
Proof.
  unfold cli.NewFunction, cli_flags.
  destruct (SourceLine fs (File f) (Line f)) as [substring|p]; simpl; [|done].
  destruct (FindParenthesised substring) as [m|]; simpl.
  - destruct (cli.build_arguments (Entry f) (Split m comma) f) as [args|p] eqn:E;
      simpl; [|done].
    intros [= <-]; simpl. split; [done|].
    apply Forall_map.
    eapply mapM_Ok_Forall; [|exact E].
    intros i a Ha. simpl in Ha.
    destruct (Split m comma !! i); [|done].
    by eapply cli_NewArgument_flag.
  - intros [= <-]; simpl. split; [done|constructor].
Qed.

Lemma x_NewArguments_from_flags (i : nat) (reflection : GoFunc) (pointer : Z)
    (variadic : bool) (parameters : list string) (arguments : x.Arguments) :
  x.NewArguments_from i reflection pointer variadic parameters = Ok arguments →
  Forall (λ a, ∃ a', a = Some a' ∧ x.Variadic a' = variadic) arguments
  ∧ length arguments = length parameters.
Proof.
  revert i arguments. induction parameters as [|parameter rest IH];
    intros i arguments; simpl.
  - intros [= <-]. split; [constructor|done].
  - destruct (TypeIn reflection i) as [in_|p]; simpl; [|done].
    destruct (first_of _) as [name|p]; simpl; [|done].
    destruct (x.NewArguments_from (S i) reflection pointer variadic rest)
      as [args|p] eqn:E; simpl; [|done].
    intros [= <-]. destruct (IH _ _ E) as [IH1 IH2]. split.
    + constructor; [|done]. eexists. split; [reflexivity|done].
    + simpl. by rewrite IH2.
Qed.

Lemma x_flags_uniform (fs : FileSystem) (f : GoFunc) (fn : x.Function) :
  x.NewFunction fs f = Ok fn →
  x.FVariadic fn = IsVariadic f ∧ Forall (λ b, b = IsVariadic f) (x_flags fn).
Proof.
  unfold x.NewFunction, x.NewDeconstruct, x_flags.
  destruct (x.strip_qualifiers _ _ _) as [name|]; simpl; [|done].
  destruct (x.NewParameters fs (File f) (Line f)) as [parameters|p]; simpl; [|done].
  destruct (x.NewArguments f (Entry f) (IsVariadic f) parameters) as [args|p] eqn:E;
    simpl; [|done].
  intros [= <-]; simpl. split; [done|].
  apply x_NewArguments_from_flags in E as [E _].
  apply Forall_map. eapply Forall_impl; [exact E|].
  by intros a (a' & -> & Ha).
Qed.

Lemma uniform_flags_only_last (v : bool) (flags : list bool) :
  Forall (λ b, b = v) flags →
  v = false ∨ length flags ≤ 1 →
  only_last_flagged flags.
Proof.
  intros Hall [->|Hlen].
  - split.
    + replace (filter (λ b, b = true) flags) with (@nil bool); [simpl; lia|].
      symmetry. induction Hall as [|b l Hb Hl IH]; [done|].
      subst b. rewrite filter_cons_False by done. exact IH.
    + intros i Hi. rewrite Forall_lookup in Hall. by specialize (Hall _ _ Hi).
  - destruct flags as [|b [|b' l]]; simpl in *; [| |lia].
    + split; [simpl; lia|]. intros i Hi. by rewrite lookup_nil in Hi.
    + split.
      * etransitivity; [apply length_filter|]. simpl. lia.
      * intros [|i] Hi; [done|]. simpl in Hi. by rewrite lookup_nil in Hi.
Qed.

Lemma uniform_flags_many (flags : list bool) :
  Forall (λ b, b = true) flags → 2 ≤ length flags → ¬ only_last_flagged flags.
Proof.
  intros Hall Hlen [_ Hlast].
  destruct flags as [|b [|b' l]]; simpl in *; [lia|lia|].
  apply Forall_cons in Hall as [-> _].
  specialize (Hlast 0 eq_refl). simpl in Hlast. lia.
Qed.

(** C2, as the code has it.  Every argument of a constructed descriptor
    carries the variadic flag of its function, in both packages: no
    argument is flagged when the function is not variadic, and all of them
    are when it is.  So the invariant of the specification holds for
    functions that are not variadic and for descriptors of at most one
    argument, and fails for a variadic function with two or more. *)
Theorem C2_variadic_flag_is_the_functions (fs : FileSystem) (f : GoFunc) :
  (∀ fn, cli.NewFunction fs f = Ok fn →
     cli.FVaradict fn = IsVariadic f
     ∧ Forall (λ b, b = IsVariadic f) (cli_flags fn)
     ∧ (IsVariadic f = false ∨ length (cli_flags fn) ≤ 1 → only_last_flagged (cli_flags fn))
     ∧ (IsVariadic f = true → 2 ≤ length (cli_flags fn) → ¬ only_last_flagged (cli_flags fn)))
  ∧ (∀ fn, x.NewFunction fs f = Ok fn →
     x.FVariadic fn = IsVariadic f
     ∧ Forall (λ b, b = IsVariadic f) (x_flags fn)
     ∧ (IsVariadic f = false ∨ length (x_flags fn) ≤ 1 → only_last_flagged (x_flags fn))
     ∧ (IsVariadic f = true → 2 ≤ length (x_flags fn) → ¬ only_last_flagged (x_flags fn))).
Proof.
  split; intros fn Hfn.
  - destruct (cli_flags_uniform fs f fn Hfn) as [Hv Hall].
    split; [done|]. split; [done|]. split.
    + by apply uniform_flags_only_last with (v := IsVariadic f).
    + intros Ht. rewrite Ht in Hall. by apply uniform_flags_many.
  - destruct (x_flags_uniform fs f fn Hfn) as [Hv Hall].
    split; [done|]. split; [done|]. split.
    + by apply uniform_flags_only_last with (v := IsVariadic f).
    + intros Ht. rewrite Ht in Hall. by apply uniform_flags_many.
Qed.

Lemma C2_variadic_flag_is_the_functions_witness :
  (∃ fn, cli.NewFunction (main_go Run1_src) Run1_fn = Ok fn
         ∧ cli_flags fn = [true] ∧ only_last_flagged (cli_flags fn))
  ∧ (∃ fn, x.NewFunction (main_go Build_src) Build_fn = Ok fn
           ∧ x_flags fn = [false; false] ∧ only_last_flagged (x_flags fn)).
Proof.
  split.
  - eexists. split; [reflexivity|]. split; [reflexivity|].
    refine (proj1 (proj2 (proj2 (proj1
      (C2_variadic_flag_is_the_functions (main_go Run1_src) Run1_fn) _ eq_refl))) _).
    right. simpl. lia.
  - eexists. split; [reflexivity|]. split; [reflexivity|].
    refine (proj1 (proj2 (proj2 (proj2
      (C2_variadic_flag_is_the_functions (main_go Build_src) Build_fn) _ eq_refl))) _).
    left. reflexivity.
Defined.

(** C2, as the specification words it, fails on
    [func Run(a int, opts ...interface{})]: both arguments are flagged. *)
Lemma C2_counterexample :
  ∃ fn, cli.NewFunction (main_go Run2_src) Run2_fn = Ok fn
        ∧ cli_flags fn = [true; true]
        ∧ ¬ only_last_flagged (cli_flags fn).
Proof.
  eexists. split; [reflexivity|]. split; [reflexivity|].
  intros [_ Hlast]. specialize (Hlast 0 eq_refl). simpl in Hlast. lia.
Qed.

(** ** Parsed parameter names against the reflected arity *)

Lemma length_from (n : nat) (s : string) :
  String.length (from n s) = String.length s - n.
Proof.
  revert s. induction n as [|n IH]; intros [|c s]; simpl; try done.
Qed.

Lemma Index_range (s : string) (c : ascii) :
  Index s c = (-1)%Z ∨ (0 ≤ Index s c < Z.of_nat (String.length s))%Z.
Proof.
  induction s as [|d s IH]; simpl; [by left|].
  destruct (byte_eqb d c); [right; lia|].
  destruct (Z.ltb_spec (Index s c) 0); [by left|right; lia].
Qed.

(** The loop of [NewDeconstruct] ends within as many turns as the name has
    bytes. *)
Lemma strip_qualifiers_total (fuel : nat) (name : string) :
  String.length name ≤ fuel →
  ∃ r, x.strip_qualifiers fuel name (Index name dot) = Some r.
Proof.
  revert name. induction fuel as [|fuel IH]; intros name Hlen.
  - destruct name; [|simpl in Hlen; lia]. by exists EmptyString.
  - simpl. destruct (Z.ltb_spec (-1) (Index name dot)) as [Hi|Hi]; [|by eexists].
    apply IH. rewrite length_from.
    destruct (Index_range name dot) as [E|E]; lia.
Qed.

Lemma Split_not_nil (s : string) (sep : ascii) : Split s sep ≠ [].
Proof.
  destruct s as [|c s]; simpl; [done|].
  destruct (byte_eqb c sep); [done|]. by destruct (Split s sep).
Qed.

Lemma first_of_Split (s : string) (sep : ascii) :
  ∃ name, first_of (Split s sep) = Ok name.
Proof.
  pose proof (Split_not_nil s sep).
  destruct (Split s sep) as [|name rest]; [done|]. by exists name.
Qed.

Lemma TypeIn_Ok (f : GoFunc) (i : nat) :
  i < NumIn f → ∃ t, TypeIn f i = Ok t.
Proof.
  intros Hi. unfold TypeIn.
  destruct (In f !! i) as [t|] eqn:E; [by exists t|].
  apply lookup_ge_None in E. unfold NumIn in Hi. lia.
Qed.

Lemma TypeIn_Panic (f : GoFunc) (i : nat) :
  NumIn f ≤ i → TypeIn f i = Panic ReflectIndex.
Proof.
  intros Hi. unfold TypeIn. by rewrite (lookup_ge_None_2 (In f) i).
Qed.

Lemma cli_NewArgument_Ok (i : nat) (pointer : Z) (parameter : string) (t : GoFunc) :
  i < NumIn t → ∃ a, cli.NewArgument i pointer parameter t = Ok a.
Proof.
  intros Hi. unfold cli.NewArgument.
  destruct (TypeIn_Ok t i Hi) as [properties ->]; simpl.
  destruct (first_of_Split (TrimSpace parameter) space) as [name ->]; simpl.
  by eexists.
Qed.

Lemma mapM_all_Ok {A B} (g : A → Result B) (l : list A) :
  Forall (λ a, ∃ b, g a = Ok b) l → ∃ bs, mapM g l = Ok bs.
Proof.
  induction 1 as [|a l [b Hb] _ [bs IH]]; simpl; [by eexists|].
  rewrite Hb; simpl. rewrite IH; simpl. by eexists.
Qed.

Lemma mapM_first_Panic {A B} (g : A → Result B) (l1 l2 : list A) (a : A) (p : PanicKind) :
  Forall (λ a, ∃ b, g a = Ok b) l1 → g a = Panic p →
  mapM g (l1 ++ a :: l2) = Panic p.
Proof.
  intros Hl Ha. induction Hl as [|a' l [b Hb] _ IH]; simpl.
  - by rewrite Ha.
  - rewrite Hb; simpl. by rewrite IH.
Qed.

Lemma cli_build_arguments_enough (pointer : Z) (parameters : list string) (fn : GoFunc) :
  NumIn fn ≤ length parameters →
  ∃ arguments, cli.build_arguments pointer parameters fn = Ok arguments
               ∧ length arguments = NumIn fn.
Proof.
  intros Hlen. unfold cli.build_arguments.
  match goal with
  | |- context [mapM ?g ?l] => destruct (mapM_all_Ok g l) as [bs Hbs]
  end.
  - apply Forall_forall. intros i Hi%elem_of_seq. simpl.
    destruct (parameters !! i) as [parameter|] eqn:E.
    + apply cli_NewArgument_Ok. lia.
    + apply lookup_ge_None in E. lia.
  - exists bs. split; [exact Hbs|].
    apply mapM_Ok_length in Hbs. by rewrite Hbs, length_seq.
Qed.

Lemma cli_build_arguments_short (pointer : Z) (parameters : list string) (fn : GoFunc) :
  length parameters < NumIn fn →
  cli.build_arguments pointer parameters fn = Panic IndexOutOfRange.
Proof.
  intros Hlen. unfold cli.build_arguments.
  replace (NumIn fn) with (length parameters + S (NumIn fn - S (length parameters))) by lia.
  rewrite seq_app. simpl. apply mapM_first_Panic.
  - apply Forall_forall. intros i Hi%elem_of_seq. simpl.
    destruct (parameters !! i) as [parameter|] eqn:E.
    + apply cli_NewArgument_Ok. lia.
    + apply lookup_ge_None in E. lia.
  - by rewrite (lookup_ge_None_2 parameters).
Qed.

Lemma x_NewArguments_from_enough (i : nat) (reflection : GoFunc) (pointer : Z)
    (variadic : bool) (parameters : list string) :
  i + length parameters ≤ NumIn reflection →
  ∃ arguments, x.NewArguments_from i reflection pointer variadic parameters = Ok arguments
               ∧ length arguments = length parameters.
Proof.
  revert i. induction parameters as [|parameter rest IH]; intros i Hlen; simpl in *.
  - by eexists.
  - destruct (TypeIn_Ok reflection i) as [in_ ->]; [lia|]. simpl.
    destruct (first_of_Split parameter space) as [name ->]. simpl.
    destruct (IH (S i)) as (arguments & -> & Ha); [lia|]. simpl.
    eexists. split; [done|]. simpl. by rewrite Ha.
Qed.

Lemma x_NewArguments_from_many (i : nat) (reflection : GoFunc) (pointer : Z)
    (variadic : bool) (parameters : list string) :
  i ≤ NumIn reflection → NumIn reflection < i + length parameters →
  x.NewArguments_from i reflection pointer variadic parameters = Panic ReflectIndex.
Proof.
  revert i. induction parameters as [|parameter rest IH]; intros i Hi Hlen; simpl in *.
  - lia.
  - destruct (decide (i = NumIn reflection)) as [->|Hne].
    + by rewrite TypeIn_Panic.
    + destruct (TypeIn_Ok reflection i) as [in_ ->]; [lia|]. simpl.
      destruct (first_of_Split parameter space) as [name ->]. simpl.
      rewrite IH by lia. done.
Qed.

(** C4, as the code has it.  Neither constructor compares the number of
    parsed segments with the reflected arity.  [cli.NewFunction] builds no
    argument when the source line has no parenthesised list, panics with
    an index out of range when the list has fewer segments than the arity,
    and otherwise builds arity-many arguments, ignoring further segments.
    [x.NewFunction] panics inside [reflect] when there are more segments
    than the arity, and otherwise builds one argument per segment. *)
Theorem C4_no_parameter_count_check (fs : FileSystem) (f : GoFunc) (line : string) :
  SourceLine fs (File f) (Line f) = Ok line →
  match FindParenthesised line with
  | None =>
      ∃ fn, cli.NewFunction fs f = Ok fn ∧ cli.FArguments fn = []
  | Some _ =>
      if decide (length (parsed_parameters line) < NumIn f) then
        cli.NewFunction fs f = Panic IndexOutOfRange
      else
        ∃ fn, cli.NewFunction fs f = Ok fn ∧ length (cli.FArguments fn) = NumIn f
  end
  ∧ if decide (NumIn f < length (parsed_parameters line)) then
      x.NewFunction fs f = Panic ReflectIndex
    else
      ∃ fn, x.NewFunction fs f = Ok fn
            ∧ length (x.FArguments fn) = length (parsed_parameters line).
Proof.
  intros Hsrc. split.
  - unfold cli.NewFunction, parsed_parameters. rewrite Hsrc; simpl.
    destruct (FindParenthesised line) as [m|]; simpl; [|by eexists].
    case_decide as Hlen.
    + by rewrite cli_build_arguments_short.
    + destruct (cli_build_arguments_enough (Entry f) (Split m comma) f)
        as (arguments & -> & Ha); [lia|]. simpl. by eexists.
  - unfold x.NewFunction, x.NewDeconstruct, x.NewParameters.
    destruct (strip_qualifiers_total (String.length (Base (Symbol f))) (Base (Symbol f)))
      as [name ->]; [done|]. simpl.
    rewrite Hsrc; simpl.
    replace (match FindParenthesised line with
             | Some m => Ok (Split m comma)
             | None => Ok []
             end) with (Ok (A := list string) (parsed_parameters line))
      by (unfold parsed_parameters; by destruct (FindParenthesised line)).
    simpl. unfold x.NewArguments.
    case_decide as Hlen.
    + rewrite x_NewArguments_from_many; [done|lia|lia].
    + destruct (x_NewArguments_from_enough 0 f (Entry f) (IsVariadic f)
                  (parsed_parameters line)) as (arguments & -> & Ha); [lia|].
      simpl. by eexists.
Qed.

Lemma C4_no_parameter_count_check_witness :
  length (parsed_parameters "func Each(visit func(int) error, n int) {") = 1
  ∧ NumIn Callback_fn = 2
  ∧ cli.NewFunction (main_go Callback_src) Callback_fn = Panic IndexOutOfRange
  ∧ ∃ fn, x.NewFunction (main_go Callback_src) Callback_fn = Ok fn
          ∧ length (x.FArguments fn) = 1.
Proof.
  split; [reflexivity|]. split; [reflexivity|].
  exact (C4_no_parameter_count_check (main_go Callback_src) Callback_fn
           "func Each(visit func(int) error, n int) {" eq_refl).
Defined.

(** More segments than parameters: [cli] builds its descriptor all the
    same, [x] panics. *)
Example count_check_more_segments :
  length (parsed_parameters "func Zero() { report(1, 2) }") = 2
  ∧ NumIn Oneline_fn = 0
  ∧ (∃ fn, cli.NewFunction (main_go Oneline_src) Oneline_fn = Ok fn
           ∧ cli.FArguments fn = [])
  ∧ x.NewFunction (main_go Oneline_src) Oneline_fn = Panic ReflectIndex.
Proof.
  split; [reflexivity|]. split; [reflexivity|]. split; [|reflexivity].
  eexists. split; reflexivity.
Qed.

(** C4, as the specification words it, fails on a declaration whose
    parameter list starts on one line and continues on the next: no name
    is parsed for a function of two parameters, and both constructors
    return a descriptor without arguments. *)
Lemma C4_counterexample :
  SourceLine (main_go Multiline_src) (File Multiline_fn) (Line Multiline_fn)
  = Ok "func Build("
  ∧ length (parsed_parameters "func Build(") ≠ NumIn Multiline_fn
  ∧ (∃ fn, cli.NewFunction (main_go Multiline_src) Multiline_fn = Ok fn
           ∧ cli.FArguments fn = [])
  ∧ (∃ fn, x.NewFunction (main_go Multiline_src) Multiline_fn = Ok fn
           ∧ x.FArguments fn = [] ∧ x.Length fn = 0%Z).
Proof.
  split; [reflexivity|]. split; [by vm_compute|].
  split; eexists; repeat split; reflexivity.
Qed.

(** ** Byte strings *)

Lemma app_cons (c : ascii) (s t : string) : String c s +:+ t = String c (s +:+ t).
Proof. reflexivity. Qed.

Lemma app_empty_l (s : string) : EmptyString +:+ s = s.
Proof. reflexivity. Qed.

Lemma app_empty_r (s : string) : s +:+ EmptyString = s.
Proof. induction s as [|c s IH]; [done|]. by rewrite app_cons, IH. Qed.

Lemma app_assoc_s (a b c : string) : (a +:+ b) +:+ c = a +:+ b +:+ c.
Proof. induction a as [|d a IH]; [done|]. by rewrite !app_cons, IH. Qed.

Lemma length_app_s (a b : string) :
  String.length (a +:+ b) = String.length a + String.length b.
Proof. induction a as [|d a IH]; [done|]. rewrite app_cons. simpl. by rewrite IH. Qed.

Lemma Join_cons_cons (e e' : string) (rest : list string) (sep : string) :
  Join (e :: e' :: rest) sep = e +:+ sep +:+ Join (e' :: rest) sep.
Proof. reflexivity. Qed.

Lemma Join_snoc (elems : list string) (e sep : string) :
  elems ≠ [] → Join (elems ++ [e]) sep = Join elems sep +:+ sep +:+ e.
Proof.
  induction elems as [|e0 [|e1 rest] IH]; intros Hne; [done|done|].
  change ((e0 :: e1 :: rest) ++ [e]) with (e0 :: (e1 :: rest) ++ [e]).
  change ((e1 :: rest) ++ [e]) with (e1 :: (rest ++ [e])) at 1.
  rewrite Join_cons_cons.
  change (e1 :: (rest ++ [e])) with ((e1 :: rest) ++ [e]).
  rewrite IH by done. rewrite Join_cons_cons. by rewrite !app_assoc_s.
Qed.

Lemma Join_head_app (a b sep : string) (rest : list string) :
  Join ((a +:+ sep +:+ b) :: rest) sep = a +:+ sep +:+ Join (b :: rest) sep.
Proof.
  destruct rest as [|e rest]; [done|].
  rewrite !Join_cons_cons. by rewrite !app_assoc_s.
Qed.

(** ** The option block *)

Section OptionBlock.
Variable offset : nat.

Lemma wrap_option_snoc (ps : list (list string)) (cur : list string)
    (function : cli.Function) :
  cli.wrap_option offset (ps ++ [cur]) function
  = if (cli.lineLength <=? String.length (Join cur " ") + offset
                           + String.length (cli.option_of function))
    then ps ++ [cur; [cli.option_of function]]
    else ps ++ [cur ++ [cli.option_of function]].
Proof.
  unfold cli.wrap_option.
  replace (length (ps ++ [cur]) - 1) with (length ps)
    by (rewrite length_app; simpl; lia).
  rewrite (list_lookup_total_middle ps [] cur (length ps)) by done.
  destruct (cli.lineLength <=? _).
  - rewrite (list_lookup_total_middle (ps ++ [cur]) [] [] (S (length ps)))
      by (rewrite length_app; simpl; lia).
    rewrite insert_app_r_alt by (rewrite length_app; simpl; lia).
    replace (S (length ps) - length (ps ++ [cur])) with 0
      by (rewrite length_app; simpl; lia).
    simpl. by rewrite <- app_assoc.
  - rewrite (list_lookup_total_middle ps [] cur (length ps)) by done.
    rewrite insert_app_r_alt by lia.
    replace (length ps - length ps) with 0 by lia. done.
Qed.

(** What the first loop of [WrapFunction] keeps true of its paragraphs
    [ps ++ [cur]]: every option string so far is in them, whole and in
    order; every paragraph fits; every paragraph but the first holds an
    option string. *)
Lemma wrap_paragraphs_from (functions : list cli.Function)
    (ps : list (list string)) (cur : list string) :
  Forall (fits offset) (ps ++ [cur]) →
  Forall (λ p, p ≠ []) (drop 1 (ps ++ [cur])) →
  ∃ ps' cur',
    fold_left (cli.wrap_option offset) functions (ps ++ [cur]) = ps' ++ [cur']
    ∧ concat (ps' ++ [cur']) = concat (ps ++ [cur]) ++ map cli.option_of functions
    ∧ Forall (fits offset) (ps' ++ [cur'])
    ∧ Forall (λ p, p ≠ []) (drop 1 (ps' ++ [cur'])).
Proof.
  revert ps cur. induction functions as [|function functions IH];
    intros ps cur Hfit Hne; simpl.
  - exists ps, cur. by rewrite app_nil_r.
  - rewrite wrap_option_snoc.
    destruct (Nat.leb_spec cli.lineLength
                (String.length (Join cur " ") + offset
                 + String.length (cli.option_of function))) as [Hover|Hunder].
    + destruct (IH (ps ++ [cur]) [cli.option_of function]) as (ps' & cur' & E & Hc & Hf & Hn).
      * apply Forall_app. split; [done|]. constructor; [|done].
        unfold fits. simpl. lia.
      * destruct ps as [|p0 ps]; simpl in *.
        { constructor; [done|constructor]. }
        apply Forall_app. split; [done|]. by constructor.
      * exists ps', cur'. rewrite <- app_assoc in E. simpl in E.
        split; [done|]. split; [|done].
        rewrite Hc. rewrite !concat_app. simpl.
        rewrite !app_nil_r. by rewrite <- !app_assoc.
    + destruct (IH ps (cur ++ [cli.option_of function])) as (ps' & cur' & E & Hc & Hf & Hn).
      * apply Forall_app in Hfit as [Hps Hcur]. apply Forall_app. split; [done|].
        constructor; [|done]. apply Forall_inv in Hcur.
        unfold fits in *. rewrite length_app. intros Hlen.
        destruct cur as [|o cur]; [simpl in Hlen; lia|].
        rewrite Join_snoc by done.
        rewrite !length_app_s. change (String.length " ") with 1. lia.
      * destruct ps as [|p0 ps]; simpl in *; [constructor|].
        apply Forall_app in Hne as [Hps _]. apply Forall_app. split; [done|].
        constructor; [|done]. by destruct cur.
      * exists ps', cur'. split; [done|]. split; [|done].
        rewrite Hc. rewrite !concat_app. simpl.
        rewrite !app_nil_r. by rewrite <- !app_assoc.
Qed.

Lemma wrap_paragraphs_spec (functions : list cli.Function) :
  ∃ first rest,
    cli.wrap_paragraphs offset functions = first :: rest
    ∧ concat (first :: rest) = map cli.option_of functions
    ∧ Forall (fits offset) (first :: rest)
    ∧ Forall (λ p, p ≠ []) rest.
Proof.
  destruct (wrap_paragraphs_from functions [] []) as (ps' & cur' & E & Hc & Hf & Hn).
  - constructor; [|done]. unfold fits. simpl. lia.
  - constructor.
  - unfold cli.wrap_paragraphs. change [[]] with ([] ++ [@nil string]). rewrite E.
    destruct ps' as [|p0 ps']; simpl in *.
    + exists cur', []. by rewrite app_nil_r in *.
    + exists p0, (ps' ++ [cur']). done.
Qed.

(** The second loop of [WrapFunction] appends one continuation line per
    paragraph. *)
Lemma wrap_sentences_Join (paragraphs : list (list string)) (template : string) :
  fold_left (cli.wrap_sentence offset) paragraphs template
  = Join (template :: map (next_line offset) paragraphs) nl.
Proof.
  revert template. induction paragraphs as [|p paragraphs IH]; intros template; [done|].
  simpl fold_left. rewrite IH. unfold cli.wrap_sentence.
  change (map (next_line offset) (p :: paragraphs))
    with (next_line offset p :: map (next_line offset) paragraphs).
  rewrite (Join_cons_cons template). fold (next_line offset p).
  replace (nl +:+ " " +:+ cli.padding offset +:+ Join p " ")
    with (nl +:+ next_line offset p) by done.
  apply Join_head_app.
Qed.

End OptionBlock.

Lemma wrap_paragraphs_first (offset : nat) (functions : list cli.Function)
    (first : list string) (rest : list (list string)) :
  cli.wrap_paragraphs offset functions = first :: rest →
  cli.wrap_paragraphs offset functions !!! 0 = first
  ∧ drop 1 (cli.wrap_paragraphs offset functions) = rest.
Proof. by intros ->. Qed.

Lemma WrapFunction_lines (name : string) (functions : list cli.Function)
    (first : list string) (rest : list (list string)) :
  cli.wrap_paragraphs (String.length ("usage: " +:+ name)) functions = first :: rest →
  cli.WrapFunction name functions
  = Join (first_line name first
          :: map (next_line (String.length ("usage: " +:+ name))) rest) nl +:+ "]".
Proof.
  intros E. unfold cli.WrapFunction.
  destruct (wrap_paragraphs_first _ _ _ _ E) as [-> ->].
  rewrite wrap_sentences_Join. unfold first_line. by rewrite !app_assoc_s.
Qed.

Lemma padding_S (n : nat) : cli.padding (S n) = String space (cli.padding n).
Proof.
  induction n as [|n IH]; [done|].
  change (cli.padding (S (S n))) with (cli.padding (S n) +:+ " ").
  rewrite IH at 1. rewrite app_cons. by f_equal.
Qed.

Lemma leading_spaces_padding (n : nat) (c : ascii) (r : string) :
  byte_eqb c space = false →
  leading_spaces (cli.padding n +:+ String c r) = n.
Proof.
  intros Hc. induction n as [|n IH].
  - change (leading_spaces (String c r) = 0). simpl. by rewrite Hc.
  - rewrite padding_S, app_cons. simpl. by rewrite IH.
Qed.

Lemma Join_starts (c : ascii) (e : string) (rest : list string) (sep : string) :
  ∃ r, Join (String c e :: rest) sep = String c r.
Proof. destruct rest as [|e' rest]; [by eexists|]. rewrite Join_cons_cons. by eexists. Qed.

Lemma next_line_indent (offset : nat) (functions : list cli.Function) (p : list string) :
  p ≠ [] → p ⊆ map cli.option_of functions →
  leading_spaces (next_line offset p) = S offset.
Proof.
  intros Hne Hsub. destruct p as [|o p]; [done|].
  assert (Ho : o ∈ map cli.option_of functions) by (apply Hsub; left).
  apply list_elem_of_fmap in Ho as (function & -> & _).
  unfold cli.option_of at 1.
  change ("[" +:+ cli.GetFunctionString function +:+ "]")
    with (String "["%char (cli.GetFunctionString function +:+ "]")).
  destruct (Join_starts "["%char (cli.GetFunctionString function +:+ "]") p " ") as [r Hr].
  unfold next_line. rewrite Hr.
  change (" " +:+ cli.padding offset +:+ String "[" r)
    with (String space (cli.padding offset +:+ String "["%char r)).
  simpl. by rewrite leading_spaces_padding.
Qed.

(** C8, as the code has it.  The option block is the first line
    [usage: name [] followed by its option strings, then one line per
    further paragraph, and a closing bracket after the last line; every
    continuation line starts with one space more than the prefix
    [usage: name] is long, so that its first option string starts in the
    column of the opening bracket. *)
Theorem C8_option_block_shape (name : string) (functions : list cli.Function) :
  ∃ first rest,
    cli.wrap_paragraphs (String.length ("usage: " +:+ name)) functions = first :: rest
    ∧ cli.WrapFunction name functions
      = Join (("usage: " +:+ name +:+ " [" +:+ Join first " ")
              :: map (next_line (String.length ("usage: " +:+ name))) rest) nl +:+ "]"
    ∧ Forall (λ p, leading_spaces (next_line (String.length ("usage: " +:+ name)) p)
                   = S (String.length ("usage: " +:+ name))) rest.
Proof.
  destruct (wrap_paragraphs_spec (String.length ("usage: " +:+ name)) functions)
    as (first & rest & E & Hc & _ & Hne).
  exists first, rest. split; [done|]. split; [by apply WrapFunction_lines|].
  apply Forall_forall. intros p Hp.
  apply next_line_indent with (functions := functions).
  - rewrite Forall_forall in Hne. by apply Hne.
  - rewrite <- Hc. intros o Ho.
    apply list_elem_of_In, in_concat. exists p.
    split; [right|]; by apply list_elem_of_In.
Qed.

(** C8, as the specification words it, fails on two long option strings:
    the continuation line starts with 18 spaces under a prefix of 17
    bytes. *)
Lemma C8_counterexample :
  lines (cli.WrapFunction "emojipedia" [list_names; remove_names])
  = ["usage: emojipedia [[--list-every-subcategory-with-its-emoji-names]";
     "                  [--remove-every-subcategory-with-its-emoji-names]]"]
  ∧ ¬ hanging_indent_at_offset "emojipedia"
        (cli.WrapFunction "emojipedia" [list_names; remove_names]).
Proof.
  split; [reflexivity|].
  intros (_ & Hindent & _).
  specialize (Hindent
    "                  [--remove-every-subcategory-with-its-emoji-names]]").
  assert (Hin : "                  [--remove-every-subcategory-with-its-emoji-names]]"
                ∈ drop 1 (lines (cli.WrapFunction "emojipedia" [list_names; remove_names])))
    by (vm_compute; left).
  specialize (Hindent Hin). vm_compute in Hindent. discriminate.
Qed.

(** ** The description block *)

Lemma words_line_snoc (g : list string) (w : string) :
  words_line (g ++ [w]) = words_line g +:+ w +:+ " ".
Proof.
  induction g as [|w0 g IH]; simpl.
  - by rewrite app_empty_r.
  - rewrite IH. by rewrite !app_assoc_s.
Qed.

Lemma broken_lines_snoc (groups : list (list string)) (g : list string) :
  broken_lines (groups ++ [g]) = broken_lines groups +:+ words_line g +:+ nl.
Proof.
  induction groups as [|g0 groups IH]; simpl.
  - by rewrite app_empty_r.
  - rewrite IH. by rewrite !app_assoc_s.
Qed.

Lemma broken_lines_Join (groups : list (list string)) (g : list string) :
  broken_lines groups +:+ words_line g = Join (map words_line (groups ++ [g])) nl.
Proof.
  induction groups as [|g0 groups IH]; [done|].
  simpl broken_lines. rewrite !app_assoc_s, IH.
  change (map words_line ((g0 :: groups) ++ [g]))
    with (words_line g0 :: map words_line (groups ++ [g])).
  destruct (map words_line (groups ++ [g])) as [|l ls] eqn:E; [|done].
  apply (f_equal length) in E. rewrite length_map, length_app in E. simpl in E. lia.
Qed.

Lemma wrap_word_snoc (done_ : list (list string)) (cur : list string) (w : string) :
  cli.wrap_word (broken_lines done_ +:+ words_line cur, String.length (words_line cur)) w
  = if (cli.lineLength <=? String.length (words_line (cur ++ [w])))
    then (broken_lines (done_ ++ [cur ++ [w]]) +:+ words_line [],
          String.length (words_line []))
    else (broken_lines done_ +:+ words_line (cur ++ [w]),
          String.length (words_line (cur ++ [w]))).
Proof.
  unfold cli.wrap_word.
  replace (String.length (words_line cur) + String.length w + 1)
    with (String.length (words_line (cur ++ [w])))
    by (rewrite words_line_snoc, !length_app_s; simpl; lia).
  replace ((broken_lines done_ +:+ words_line cur) +:+ w +:+ " ")
    with (broken_lines done_ +:+ words_line (cur ++ [w]))
    by (by rewrite words_line_snoc, !app_assoc_s).
  destruct (cli.lineLength <=? _); [|done].
  rewrite broken_lines_snoc.
  change (words_line []) with EmptyString.
  by rewrite app_empty_r, !app_assoc_s.
Qed.

Lemma wrap_words_from (words : list string) (done_ : list (list string))
    (cur : list string) :
  String.length (words_line cur) < cli.lineLength →
  Forall broken_by_last_word done_ →
  ∃ done' cur',
    fold_left cli.wrap_word words
      (broken_lines done_ +:+ words_line cur, String.length (words_line cur))
    = (broken_lines done' +:+ words_line cur', String.length (words_line cur'))
    ∧ concat (done' ++ [cur']) = concat (done_ ++ [cur]) ++ words
    ∧ String.length (words_line cur') < cli.lineLength
    ∧ Forall broken_by_last_word done'.
Proof.
  revert done_ cur. induction words as [|w words IH]; intros done_ cur Hcur Hdone.
  - exists done_, cur. by rewrite app_nil_r.
  - cbn [fold_left]. rewrite wrap_word_snoc.
    destruct (Nat.leb_spec cli.lineLength (String.length (words_line (cur ++ [w]))))
      as [Hover|Hunder].
    + destruct (IH (done_ ++ [cur ++ [w]]) []) as (done' & cur' & E & Hc & Hl & Hd).
      * simpl. unfold cli.lineLength. lia.
      * apply Forall_app. split; [done|]. constructor; [|done].
        exists cur, w. done.
      * exists done', cur'. split; [done|]. split; [|done].
        rewrite Hc. rewrite !concat_app. simpl. rewrite !app_nil_r.
        by rewrite <- !app_assoc.
    + destruct (IH done_ (cur ++ [w])) as (done' & cur' & E & Hc & Hl & Hd); [done..|].
      exists done', cur'. split; [done|]. split; [|done].
      rewrite Hc. rewrite !concat_app. simpl. rewrite !app_nil_r.
      by rewrite <- !app_assoc.
Qed.

Lemma WrapDescription_lines (paragraph : string) :
  ∃ broken last,
    concat (broken ++ [last]) = Split paragraph space
    ∧ cli.WrapDescription paragraph = Join (map words_line (broken ++ [last])) nl
    ∧ Forall broken_by_last_word broken
    ∧ String.length (words_line last) < cli.lineLength.
Proof.
  destruct (wrap_words_from (Split paragraph space) [] []) as (broken & last & E & Hc & Hl & Hb).
  - simpl. unfold cli.lineLength. lia.
  - constructor.
  - exists broken, last. split; [done|]. split; [|done].
    unfold cli.WrapDescription.
    change (EmptyString, 0) with
      (broken_lines [] +:+ words_line [], String.length (words_line [])).
    rewrite E. simpl. apply broken_lines_Join.
Qed.

(** ** The usage document *)

Lemma Join_app (l1 l2 : list string) (sep : string) :
  l1 ≠ [] → l2 ≠ [] →
  Join (l1 ++ l2) sep = Join l1 sep +:+ sep +:+ Join l2 sep.
Proof.
  intros H1 H2. induction l1 as [|e [|e' l1] IH]; [done| |].
  - destruct l2 as [|e2 l2]; [done|]. done.
  - change ((e :: e' :: l1) ++ l2) with (e :: e' :: (l1 ++ l2)).
    rewrite !Join_cons_cons.
    change (e' :: (l1 ++ l2)) with ((e' :: l1) ++ l2).
    rewrite IH by done. by rewrite !app_assoc_s.
Qed.

Lemma length_padding (n : nat) : String.length (cli.padding n) = n.
Proof.
  induction n as [|n IH]; [done|].
  rewrite padding_S. simpl. by rewrite IH.
Qed.

Lemma length_first_line (name : string) (p : list string) :
  String.length (first_line name p)
  = String.length ("usage: " +:+ name) + 2 + String.length (Join p " ").
Proof.
  unfold first_line. rewrite <- app_assoc_s. rewrite !length_app_s. simpl. lia.
Qed.

Lemma length_next_line (offset : nat) (p : list string) :
  String.length (next_line offset p) = 1 + offset + String.length (Join p " ").
Proof.
  unfold next_line. rewrite !length_app_s, length_padding. simpl. lia.
Qed.

(** C3, as the code has it.  The usage document is, line by line: the
    description's words in groups, every word whole and followed by a
    space; an empty line; the option strings in paragraphs, whole, the
    first after [usage: name [] and the others indented; and a closing
    bracket.  A description line is broken right after the word with which
    it reaches 79 bytes, so it is at least 79 bytes long and exceeds 79 by
    at most its last word, and the line left unbroken at the end is
    shorter than 79.  An option line of two or more option strings is at
    most 81 bytes long if it is the first and 80 otherwise, before the
    closing bracket; a line of one option string is as long as that string
    makes it. *)
Theorem C3_usage_line_lengths (name description : string)
    (functions : list cli.Function) :
  ∃ (broken : list (list string)) (last first : list string)
    (rest : list (list string)),
    concat (broken ++ [last]) = Split description space
    ∧ concat (first :: rest) = map cli.option_of functions
    ∧ cli.WrapUse name description functions
      = Join (map words_line (broken ++ [last])
              ++ [EmptyString]
              ++ first_line name first
                 :: map (next_line (String.length ("usage: " +:+ name))) rest) nl
        +:+ "]"
    ∧ Forall (λ g, ∃ g' w, g = g' ++ [w]
                           ∧ String.length (words_line g') < 79
                           ∧ 79 ≤ String.length (words_line g)
                           ∧ String.length (words_line g)
                             = String.length (words_line g') + String.length w + 1)
             broken
    ∧ String.length (words_line last) < 79
    ∧ (2 ≤ length first → String.length (first_line name first) ≤ 81)
    ∧ Forall (λ p, p ≠ []
                   ∧ (2 ≤ length p →
                      String.length (next_line (String.length ("usage: " +:+ name)) p)
                      ≤ 80))
             rest.
Proof.
  destruct (WrapDescription_lines description) as (broken & last & Hd & HD & Hb & Hl).
  destruct (wrap_paragraphs_spec (String.length ("usage: " +:+ name)) functions)
    as (first & rest & E & Hc & Hf & Hne).
  exists broken, last, first, rest.
  split; [done|]. split; [done|]. split; [|split; [|split; [done|split]]].
  - unfold cli.WrapUse. rewrite HD, (WrapFunction_lines _ _ _ _ E).
    rewrite Join_app; [|by destruct broken|done].
    change ([EmptyString] ++ ?l) with (EmptyString :: l).
    rewrite (Join_cons_cons EmptyString).
    by rewrite !app_assoc_s.
  - eapply Forall_impl; [exact Hb|].
    intros g (g' & w & -> & Hlt & Hge). exists g', w.
    split; [done|]. split; [done|]. split; [done|].
    rewrite words_line_snoc, !length_app_s. simpl. lia.
  - intros Hlen. apply Forall_inv in Hf. specialize (Hf Hlen).
    rewrite length_first_line. unfold cli.lineLength in Hf. lia.
  - apply Forall_inv_tail in Hf.
    rewrite Forall_forall in Hf, Hne. apply Forall_forall. intros p Hp.
    split; [by apply Hne|]. intros Hlen. specialize (Hf p Hp Hlen).
    rewrite length_next_line. unfold cli.lineLength in Hf. lia.
Qed.

(** C3, as the specification words it, fails on a description of
    ordinary words: its first line is 81 bytes long, 80 without the space
    that ends it, and no word is longer than 13 bytes. *)
Lemma C3_counterexample :
  lines (cli.WrapUse "emojipedia" about_emojipedia [])
  = ["emojipedia collects the unicode emoji charts and keeps categories, subcategories ";
     "and keywords as local files ";
     "";
     "usage: emojipedia []"]
  ∧ ¬ usage_lines_within_budget "emojipedia" about_emojipedia [].
Proof.
  split; [reflexivity|].
  intros Hall.
  destruct (Hall "emojipedia collects the unicode emoji charts and keeps categories, subcategories ")
    as [Hlen|(t & Ht & Hlong & _)].
  - vm_compute. left.
  - vm_compute in Hlen. lia.
  - assert (Hshort : Forall (λ t, String.length t ≤ 13)
                       (Split about_emojipedia space ++ map cli.option_of [])).
    { vm_compute. repeat constructor. }
    rewrite Forall_forall in Hshort. specialize (Hshort t Ht). lia.
Qed.

(** The bounds of the option block are met: two option strings of 32 and
    29 bytes share the first line, which is 81 bytes long before the
    closing bracket. *)
Example option_line_of_81 :
  map String.length
    (lines (cli.WrapFunction "emojipedia"
              [bare "main.ListTheEmojiSubcategories" 4198400 3;
               bare "main.ClearEmojiSubcategories" 4198656 6]))
  = [82].
Proof. reflexivity. Qed.

(** ** Display names *)

Lemma to_lower_not_upper (c : ascii) : not_upper (to_lower c) = true.
Proof. destruct c as [[] [] [] [] [] [] [] []]; reflexivity. Qed.

Lemma to_lower_not_slash (c : ascii) : not_slash (to_lower c) = not_slash c.
Proof. destruct c as [[] [] [] [] [] [] [] []]; reflexivity. Qed.

Lemma to_lower_id (c : ascii) : not_upper c = true → to_lower c = c.
Proof.
  unfold not_upper, to_lower. by destruct (is_upper c).
Qed.

Lemma ToLower_not_upper (s : string) : all_bytes not_upper (ToLower s) = true.
Proof.
  unfold ToLower. induction s as [|c s IH]; [done|].
  simpl. by rewrite to_lower_not_upper, IH.
Qed.

Lemma ToLower_not_slash (s : string) :
  all_bytes not_slash (ToLower s) = all_bytes not_slash s.
Proof.
  unfold ToLower. induction s as [|c s IH]; [done|].
  simpl. by rewrite to_lower_not_slash, IH.
Qed.

Lemma ToLower_id (s : string) : all_bytes not_upper s = true → ToLower s = s.
Proof.
  unfold ToLower. induction s as [|c s IH]; [done|]. simpl.
  intros [Hc Hs]%andb_true_iff. by rewrite (to_lower_id c Hc), (IH Hs).
Qed.

Lemma length_ToLower (s : string) : String.length (ToLower s) = String.length s.
Proof. unfold ToLower. induction s as [|c s IH]; [done|]. simpl. by rewrite IH. Qed.

Lemma all_bytes_app (p : ascii → bool) (a b : string) :
  all_bytes p (a +:+ b) = all_bytes p a && all_bytes p b.
Proof.
  induction a as [|c a IH]; [done|]. rewrite app_cons. simpl.
  by rewrite IH, andb_assoc.
Qed.

Lemma all_bytes_from (p : ascii → bool) (n : nat) (s : string) :
  all_bytes p s = true → all_bytes p (from n s) = true.
Proof.
  revert s. induction n as [|n IH]; intros [|c s]; simpl; try done.
  intros [_ Hs]%andb_true_iff. by apply IH.
Qed.

Lemma span_all_bytes (q p : ascii → bool) (s a b : string) :
  span q s = (a, b) → all_bytes p s = true →
  all_bytes p a = true ∧ all_bytes p b = true.
Proof.
  revert a b. induction s as [|c s IH]; intros a b; simpl.
  - by intros [= <- <-].
  - destruct (q c).
    + destruct (span q s) as [a' b'] eqn:E. intros [= <- <-].
      intros [Hc Hs]%andb_true_iff. destruct (IH _ _ eq_refl Hs) as [Ha Hb].
      simpl. by rewrite Hc, Ha.
    + by intros [= <- <-].
Qed.

Lemma camel_matches_all_bytes (p : ascii → bool) (fuel : nat) (s : string) :
  all_bytes p s = true → Forall (λ t, all_bytes p t = true) (camel_matches fuel s).
Proof.
  revert s. induction fuel as [|fuel IH]; intros s Hs; simpl; [constructor|].
  destruct s as [|c s]; [constructor|].
  destruct (span is_upper (String c s)) as [u r] eqn:Eu.
  destruct (span not_upper r) as [l r'] eqn:El.
  destruct (span_all_bytes _ p _ _ _ Eu Hs) as [Hu Hr].
  destruct (span_all_bytes _ p _ _ _ El Hr) as [Hl Hr'].
  constructor; [|by apply IH]. by rewrite all_bytes_app, Hu, Hl.
Qed.

Lemma Join_all_bytes (p : ascii → bool) (elems : list string) (sep : string) :
  all_bytes p sep = true →
  Forall (λ t, all_bytes p t = true) elems →
  all_bytes p (Join elems sep) = true.
Proof.
  intros Hsep. induction 1 as [|e [|e' rest] He Hrest IH]; [done|done|].
  rewrite Join_cons_cons, !all_bytes_app. by rewrite He, Hsep, IH.
Qed.

Lemma span_none (q : ascii → bool) (c : ascii) (s : string) :
  q c = false → span q (String c s) = (EmptyString, String c s).
Proof. intros Hc. simpl. by rewrite Hc. Qed.

Lemma span_all (q : ascii → bool) (s : string) :
  all_bytes q s = true → span q s = (s, EmptyString).
Proof.
  induction s as [|c s IH]; [done|]. simpl.
  intros [Hc Hs]%andb_true_iff. by rewrite Hc, (IH Hs).
Qed.

(** A name without upper-case bytes is one match of the camel-case
    expression. *)
Lemma FindAllCamel_lower (s : string) :
  s ≠ EmptyString → all_bytes not_upper s = true → FindAllCamel s = [s].
Proof.
  intros Hne Hs. destruct s as [|c s]; [done|].
  unfold FindAllCamel. cbn [String.length camel_matches].
  assert (Hc : is_upper c = false).
  { simpl in Hs. apply andb_true_iff in Hs as [Hc _].
    unfold not_upper in Hc. by destruct (is_upper c). }
  rewrite (span_none is_upper c s Hc), (span_all not_upper _ Hs).
  rewrite app_empty_l. f_equal. by destruct (String.length s).
Qed.

Lemma strip_trailing_slashes_id (s : string) :
  all_bytes not_slash s = true → strip_trailing_slashes s = s.
Proof.
  induction s as [|c s IH]; [done|]. simpl.
  intros [Hc Hs]%andb_true_iff. rewrite (IH Hs).
  destruct s; [|done]. unfold not_slash in Hc. by destruct (is_slash c).
Qed.

Lemma last_index_None (s : string) (q : ascii → bool) :
  all_bytes (λ c, negb (q c)) s = true → last_index s q = None.
Proof.
  induction s as [|c s IH]; [done|]. simpl.
  intros [Hc Hs]%andb_true_iff. rewrite (IH Hs). by destruct (q c).
Qed.

Lemma last_index_after (s : string) (q : ascii → bool) :
  match last_index s q with
  | Some i => all_bytes (λ c, negb (q c)) (from (S i) s) = true
  | None => all_bytes (λ c, negb (q c)) s = true
  end.
Proof.
  induction s as [|c s IH]; [done|]. simpl.
  destruct (last_index s q) as [i|].
  - exact IH.
  - destruct (q c); simpl; [done|]. by rewrite IH.
Qed.

(** [Base] of a non-empty name without slashes is the name. *)
Lemma Base_id (s : string) :
  s ≠ EmptyString → all_bytes not_slash s = true → Base s = s.
Proof.
  intros Hne Hs. unfold Base. destruct s as [|c s]; [done|].
  rewrite (strip_trailing_slashes_id _ Hs), (last_index_None _ is_slash Hs). done.
Qed.

(** [Base] answers the root, or a name without slashes. *)
Lemma Base_cases (s : string) :
  Base s = "/" ∨ all_bytes not_slash (Base s) = true.
Proof.
  unfold Base. destruct s as [|c s]; [by right|].
  pose proof (last_index_after (strip_trailing_slashes (String c s)) is_slash) as H.
  destruct (last_index (strip_trailing_slashes (String c s)) is_slash) as [i|].
  - destruct (from (S i) _); [by left|by right].
  - destruct (strip_trailing_slashes (String c s)); [by left|by right].
Qed.

(** What [cli.NewFunction] does to the base of a symbol. *)
Lemma displayName_of_Base (symbol : string) :
  cli.displayName symbol
  = ToLower (match FindAllCamel (from (Z.to_nat (Index (Base symbol) dot + 1)) (Base symbol)) with
             | [] => from (Z.to_nat (Index (Base symbol) dot + 1)) (Base symbol)
             | _ :: _ => Join (FindAllCamel
                                 (from (Z.to_nat (Index (Base symbol) dot + 1)) (Base symbol)))
                              "-"
             end).
Proof. unfold cli.displayName. by destruct (FindAllCamel _). Qed.

Lemma displayName_shape (symbol : string) :
  all_bytes not_upper (cli.displayName symbol) = true
  ∧ (cli.displayName symbol = "/"
     ∨ all_bytes not_slash (cli.displayName symbol) = true).
Proof.
  split; [apply ToLower_not_upper|].
  rewrite displayName_of_Base.
  destruct (Base_cases symbol) as [->|Hb]; [by left|right].
  rewrite ToLower_not_slash.
  set (name := from _ (Base symbol)).
  assert (Hname : all_bytes not_slash name = true) by by apply all_bytes_from.
  destruct (FindAllCamel name) as [|t ts] eqn:E; [done|].
  apply Join_all_bytes; [done|]. rewrite <- E. by apply camel_matches_all_bytes.
Qed.

(** On a name without upper-case bytes and without slashes, the display
    name is what follows the first dot. *)
Lemma displayName_lower (t : string) :
  t ≠ EmptyString → all_bytes not_upper t = true → all_bytes not_slash t = true →
  cli.displayName t = from (Z.to_nat (Index t dot + 1)) t.
Proof.
  intros Hne Hup Hsl. rewrite displayName_of_Base, (Base_id t Hne Hsl).
  set (name := from _ t).
  assert (Hname : all_bytes not_upper name = true) by by apply all_bytes_from.
  destruct (decide (name = EmptyString)) as [->|Hn]; [done|].
  rewrite (FindAllCamel_lower name Hn Hname). simpl. by apply ToLower_id.
Qed.

(** A second normalisation changes a display name exactly when a dot is
    left in it. *)
Lemma displayName_idempotent_iff (symbol : string) :
  cli.displayName (cli.displayName symbol) = cli.displayName symbol
  ↔ Index (cli.displayName symbol) dot = (-1)%Z.
Proof.
  destruct (displayName_shape symbol) as [Hup [E|Hsl]].
  { rewrite E. split; reflexivity. }
  set (t := cli.displayName symbol) in *.
  destruct (decide (t = EmptyString)) as [E|Hne].
  { rewrite E. split; reflexivity. }
  rewrite (displayName_lower t Hne Hup Hsl). split.
  - intros Heq. destruct (Index_range t dot) as [Hi|Hi]; [done|].
    apply (f_equal String.length) in Heq. rewrite length_from in Heq. lia.
  - by intros ->.
Qed.

Lemma to_lower_not_dot (c : ascii) : not_dot (to_lower c) = not_dot c.
Proof. destruct c as [[] [] [] [] [] [] [] []]; reflexivity. Qed.

Lemma ToLower_not_dot (s : string) :
  all_bytes not_dot (ToLower s) = all_bytes not_dot s.
Proof.
  unfold ToLower. induction s as [|c s IH]; [done|].
  simpl. by rewrite to_lower_not_dot, IH.
Qed.

Lemma Index_none_iff (s : string) :
  Index s dot = (-1)%Z ↔ all_bytes not_dot s = true.
Proof.
  induction s as [|c s IH]; [done|]. simpl. unfold not_dot at 1.
  destruct (byte_eqb c dot); simpl; [done|].
  rewrite <- IH. destruct (Index_range s dot) as [->|Hi]; [done|].
  destruct (Z.ltb_spec (Index s dot) 0); lia.
Qed.

Lemma span_app_eq (q : ascii → bool) (s a b : string) :
  span q s = (a, b) → s = a +:+ b.
Proof.
  revert a b. induction s as [|c s IH]; intros a b; simpl.
  - by intros [= <- <-].
  - destruct (q c).
    + destruct (span q s) as [a' b'] eqn:E. intros [= <- <-].
      rewrite app_cons. f_equal. by apply IH.
    + by intros [= <- <-].
Qed.

Lemma Join_empty_sep (e : string) (rest : list string) :
  Join (e :: rest) EmptyString = e +:+ Join rest EmptyString.
Proof. destruct rest as [|e' rest]; [by rewrite app_empty_r|done]. Qed.

(** The matches of the camel-case expression tile the name. *)
Lemma camel_matches_tile (fuel : nat) (s : string) :
  String.length s ≤ fuel → Join (camel_matches fuel s) EmptyString = s.
Proof.
  revert s. induction fuel as [|fuel IH]; intros s Hlen.
  - by destruct s; [|simpl in Hlen; lia].
  - destruct s as [|c s]; [done|]. cbn [camel_matches].
    destruct (span is_upper (String c s)) as [u r] eqn:Eu.
    destruct (span not_upper r) as [l r'] eqn:El.
    rewrite Join_empty_sep.
    pose proof (span_app_eq _ _ _ _ Eu) as Hu.
    pose proof (span_app_eq _ _ _ _ El) as Hl.
    assert (Hr' : String.length r' ≤ fuel).
    { apply (f_equal String.length) in Hu, Hl.
      rewrite length_app_s in Hu, Hl. simpl in Hu, Hlen.
      assert (0 < String.length u + String.length l); [|lia].
      simpl in Eu. destruct (is_upper c) eqn:Ec.
      - destruct (span is_upper s). injection Eu as <- <-. simpl. lia.
      - injection Eu as <- <-. simpl in El. unfold not_upper in El at 1.
        rewrite Ec in El. simpl in El. destruct (span not_upper s).
        injection El as <- <-. simpl. lia. }
    rewrite (IH r' Hr'). rewrite Hu, Hl. by rewrite app_assoc_s.
Qed.

Lemma Join_sep_all_bytes (p : ascii → bool) (elems : list string) (sep : string) :
  all_bytes p sep = true →
  all_bytes p (Join elems sep) = all_bytes p (Join elems EmptyString).
Proof.
  intros Hsep. induction elems as [|e [|e' rest] IH]; [done|done|].
  rewrite !Join_cons_cons, !all_bytes_app, Hsep, IH. done.
Qed.

(** Hyphenating and lower-casing neither adds nor removes a dot. *)
Lemma displayName_dots (symbol : string) :
  all_bytes not_dot (cli.displayName symbol)
  = all_bytes not_dot (from (Z.to_nat (Index (Base symbol) dot + 1)) (Base symbol)).
Proof.
  rewrite displayName_of_Base, ToLower_not_dot.
  set (name := from _ (Base symbol)).
  destruct (FindAllCamel name) as [|t ts] eqn:E; [done|].
  rewrite <- E, Join_sep_all_bytes by done.
  unfold FindAllCamel. by rewrite camel_matches_tile.
Qed.

(** X21. Normalising a display name a second time leaves it as it is
    exactly when the base name of the symbol holds no dot after its first
    one. *)
Lemma displayName_idempotent_iff_one_dot (symbol : string) :
  cli.displayName (cli.displayName symbol) = cli.displayName symbol
  ↔ Index (from (Z.to_nat (Index (Base symbol) dot + 1)) (Base symbol)) dot = (-1)%Z.
Proof.
  rewrite displayName_idempotent_iff, !Index_none_iff. by rewrite displayName_dots.
Qed.

(** The loop of [x.NewDeconstruct] leaves a name without dots. *)
Lemma strip_qualifiers_no_dot (fuel : nat) (name r : string) :
  x.strip_qualifiers fuel name (Index name dot) = Some r → Index r dot = (-1)%Z.
Proof.
  revert name. induction fuel as [|fuel IH]; intros name; simpl.
  - destruct (Z.ltb_spec (-1) (Index name dot)); [done|]. intros [= <-].
    destruct (Index_range name dot); lia.
  - destruct (Z.ltb_spec (-1) (Index name dot)); [by apply IH|]. intros [= <-].
    destruct (Index_range name dot); lia.
Qed.

(** The descriptor of a function without parameters is the one [bare]
    writes down, and renders as two hyphens and its display name. *)
Example bare_is_built :
  cli.NewFunction
    (main_go ("package main" +:+ nl +:+ nl +:+ "func ListAll() {" +:+ nl +:+ "}" +:+ nl))
    {| Symbol := "main.ListAll"; Entry := 4198400; File := "/src/main.go"; Line := 3;
       In := []; NumOut := 0; IsVariadic := false |}
  = Ok (bare "main.ListAll" 4198400 3)
  ∧ cli.GetFunctionString (bare "main.ListAll" 4198400 3) = "--list-all".
Proof. split; reflexivity. Qed.

Lemma last_index_None_Index (s : string) :
  last_index s is_dot = None → Index s dot = (-1)%Z.
Proof.
  induction s as [|c s IH]; [done|]. simpl.
  destruct (last_index s is_dot); [done|]. unfold is_dot.
  destruct (byte_eqb c dot); [done|]. intros _. by rewrite IH.
Qed.

Lemma Index_None_last_index (s : string) :
  Index s dot = (-1)%Z → last_index s is_dot = None.
Proof.
  intros H. apply Index_none_iff in H. by apply last_index_None.
Qed.

(** Dropping a name up to its first dot does not change what follows its
    last dot. *)
Lemma after_last_dot_from (name : string) :
  (0 ≤ Index name dot)%Z →
  after_last_dot (from (Z.to_nat (Index name dot + 1)) name) = after_last_dot name.
Proof.
  induction name as [|c s IH]; [done|]. simpl Index.
  destruct (byte_eqb c dot) eqn:Ec.
  - intros _. change (from (Z.to_nat (0 + 1)) (String c s)) with s.
    unfold after_last_dot. simpl.
    replace (is_dot c) with true by (symmetry; exact Ec).
    by destruct (last_index s is_dot).
  - destruct (Z.ltb_spec (Index s dot) 0) as [Hlt|Hge]; [lia|]. intros _.
    replace (Z.to_nat (Index s dot + 1 + 1)) with (S (Z.to_nat (Index s dot + 1))) by lia.
    simpl from. rewrite (IH Hge). unfold after_last_dot. simpl.
    destruct (last_index s is_dot) as [j|] eqn:E; [done|].
    apply last_index_None_Index in E. lia.
Qed.

(** The loop of [x.NewDeconstruct] computes what follows the last dot. *)
Lemma strip_qualifiers_after_last_dot (fuel : nat) (name : string) :
  String.length name ≤ fuel →
  x.strip_qualifiers fuel name (Index name dot) = Some (after_last_dot name).
Proof.
  revert name. induction fuel as [|fuel IH]; intros name Hlen.
  - destruct name; [done|simpl in Hlen; lia].
  - simpl. destruct (Z.ltb_spec (-1) (Index name dot)) as [Hi|Hi].
    + rewrite IH.
      * f_equal. apply after_last_dot_from. lia.
      * rewrite length_from. destruct (Index_range name dot); lia.
    + f_equal. unfold after_last_dot.
      rewrite Index_None_last_index; [done|].
      destruct (Index_range name dot); lia.
Qed.

Lemma x_DName_after_last_dot (fs : FileSystem) (f : GoFunc) (d : x.Deconstruct) :
  x.NewDeconstruct fs f = Ok d → x.DName d = after_last_dot (Base (Symbol f)).
Proof.
  unfold x.NewDeconstruct. rewrite strip_qualifiers_after_last_dot by done. simpl.
  destruct (x.NewParameters fs (File f) (Line f)); simpl; [|done].
  by intros [= <-].
Qed.

(** [cli.NewFunction] computes the display name of the specification
    exactly on the symbols whose base name holds no dot after its first
    one. *)
Lemma displayName_spec_iff_one_dot (symbol : string) :
  cli.displayName symbol = spec_displayName symbol
  ↔ Index (from (Z.to_nat (Index (Base symbol) dot + 1)) (Base symbol)) dot = (-1)%Z.
Proof.
  pose proof (displayName_dots symbol) as Hd.
  set (b := Base symbol) in *. split.
  - intros Heq. apply Index_none_iff. rewrite <- Hd, Heq.
    unfold spec_displayName. fold b.
    assert (Hn : all_bytes not_dot (after_last_dot b) = true).
    { unfold after_last_dot. pose proof (last_index_after b is_dot) as H.
      by destruct (last_index b is_dot). }
    rewrite ToLower_not_dot.
    destruct (FindAllCamel (after_last_dot b)) as [|t ts] eqn:E; [done|].
    rewrite <- E, Join_sep_all_bytes by done.
    unfold FindAllCamel. by rewrite camel_matches_tile.
  - intros Hno. unfold cli.displayName, spec_displayName. fold b.
    replace (after_last_dot b) with (from (Z.to_nat (Index b dot + 1)) b); [done|].
    destruct (Index_range b dot) as [E|Hi].
    + rewrite E. simpl. unfold after_last_dot. by rewrite Index_None_last_index.
    + rewrite <- (after_last_dot_from b) by lia.
      unfold after_last_dot. by rewrite Index_None_last_index.
Qed.

(** C7. On the symbol of the method expression [main.Server.Start],
    [cli.NewFunction] drops the name only up to its first dot and yields
    [server.-start], where the display name of the specification, from
    what follows the last dot, is [start]; [x.NewDeconstruct] loops over
    the dots and keeps [Start]. *)
Theorem C7_display_name_first_dot :
  cli.displayName Start_symbol = "server.-start"
  ∧ spec_displayName Start_symbol = "start"
  ∧ (∃ fn, cli.NewFunction (main_go Start_src) Start_fn = Ok fn
           ∧ cli.FName fn = "server.-start")
  ∧ (∃ d, x.NewDeconstruct (main_go Start_src) Start_fn = Ok d
          ∧ x.DName d = "Start").
Proof.
  split; [reflexivity|]. split; [reflexivity|].
  split; eexists; split; reflexivity.
Qed.

(** C6. Normalising the display name of [main.Server.Start] a second time
    changes it: the first pass leaves the dot of [server.-start], and the
    second pass strips up to it. *)
Theorem C6_display_name_twice :
  cli.displayName Start_symbol = "server.-start"
  ∧ cli.displayName (cli.displayName Start_symbol) = "-start"
  ∧ cli.displayName (cli.displayName Start_symbol) ≠ cli.displayName Start_symbol.
Proof.
  split; [reflexivity|]. split; [reflexivity|]. by vm_compute.
Qed.

(** ** The registry as a whole *)

Lemma mapM_Ok_Forall2 {A B} (g : A → Result B) (l : list A) (bs : list B) :
  mapM g l = Ok bs ↔ Forall2 (λ a b, g a = Ok b) l bs.
Proof.
  revert bs. induction l as [|a l IH]; intros bs; simpl.
  - split; [intros [= <-]; constructor|by inversion 1].
  - split.
    + destruct (g a) as [b|p] eqn:Ea; simpl; [|done].
      destruct (mapM g l) as [bs'|p] eqn:El; simpl; [|done].
      intros [= <-]. constructor; [done|]. by apply IH.
    + inversion 1 as [|? b ? bs' Hb Hbs]; subst. rewrite Hb. simpl.
      apply IH in Hbs. by rewrite Hbs.
Qed.

(** Assigning descriptors to a map one after the other, as [register]
    does once they are built. *)
Lemma register_fold (fs : FileSystem) (l : list GoFunc)
    (m m' : gmap string x.Function) :
  x.register fs m l = Ok m' ↔
  ∃ fns, mapM (x.NewFunction fs) l = Ok fns
         ∧ m' = fold_left (λ acc fn, <[key_of fn := fn]> acc) fns m.
Proof.
  revert m. induction l as [|f l IH]; intros m; simpl.
  - split; [intros [= <-]; by exists []|]. by intros (fns & [= <-] & ->).
  - destruct (x.NewFunction fs f) as [n|p]; simpl.
    + rewrite IH. split.
      * intros (fns & Hfns & ->). exists (n :: fns). by rewrite Hfns.
      * intros (fns & Hfns & ->).
        destruct (mapM (x.NewFunction fs) l) as [fns'|]; simpl in *; [|done].
        injection Hfns as <-. by exists fns'.
    + split; [done|]. by intros (fns & ? & _).
Qed.

Lemma fold_insert_lookup (fns : list x.Function) (m : gmap string x.Function)
    (k : string) (fn : x.Function) :
  fold_left (λ acc fn, <[key_of fn := fn]> acc) fns m !! k = Some fn →
  (fn ∈ fns ∧ key_of fn = k) ∨ m !! k = Some fn.
Proof.
  revert m. induction fns as [|fn0 fns IH]; intros m; simpl; [by right|].
  intros H. destruct (IH _ H) as [[Hin Hk]|Hm].
  - left. split; [by right|done].
  - destruct (decide (key_of fn0 = k)) as [<-|Hne].
    + rewrite lookup_insert_eq in Hm. injection Hm as <-. left. split; [left|done].
    + rewrite lookup_insert_ne in Hm by done. by right.
Qed.

Lemma fold_insert_keeps_key (fns : list x.Function) (m : gmap string x.Function)
    (k : string) (v : x.Function) :
  m !! k = Some v → key_of v = k →
  ∃ v', fold_left (λ acc fn, <[key_of fn := fn]> acc) fns m !! k = Some v'
        ∧ key_of v' = k.
Proof.
  revert m v. induction fns as [|fn0 fns IH]; intros m v Hm Hk; simpl; [by exists v|].
  destruct (decide (key_of fn0 = k)) as [E|Hne].
  - apply (IH _ fn0); [by rewrite <- E, lookup_insert_eq|done].
  - apply (IH _ v); [by rewrite lookup_insert_ne|done].
Qed.

Lemma fold_insert_found (fns : list x.Function) (m : gmap string x.Function)
    (fn : x.Function) :
  fn ∈ fns →
  ∃ fn', fold_left (λ acc fn, <[key_of fn := fn]> acc) fns m !! key_of fn = Some fn'
         ∧ key_of fn' = key_of fn.
Proof.
  revert m. induction fns as [|fn0 fns IH]; intros m Hin; [by inversion Hin|].
  simpl. apply elem_of_cons in Hin as [->|Hin]; [|by apply IH].
  apply (fold_insert_keeps_key fns _ (key_of fn0) fn0); [apply lookup_insert_eq|done].
Qed.

Lemma fold_insert_size (fns : list x.Function) (m : gmap string x.Function) :
  size (fold_left (λ acc fn, <[key_of fn := fn]> acc) fns m) ≤ size m + length fns.
Proof.
  revert m. induction fns as [|fn0 fns IH]; intros m; simpl; [lia|].
  etransitivity; [apply IH|].
  destruct (m !! key_of fn0) as [v|] eqn:E.
  - rewrite map_size_insert_Some by done. lia.
  - rewrite map_size_insert_None by done. lia.
Qed.

(** X1. Every function that was registered is found again under its name,
    in whatever case the name is written: [Has] and [Contains] answer
    true, and [Get] returns a descriptor with the same key.  (It is the
    descriptor of the last registration under that key.) *)
Theorem X1_registered_functions_are_found (fs : FileSystem) (l : list GoFunc)
    (m : gmap string x.Function) (f : GoFunc) (fn : x.Function) :
  x.NewFunctions fs l = Ok m →
  f ∈ l →
  x.NewFunction fs f = Ok fn →
  x.Functions_Has m (x.FName fn) = true
  ∧ x.Contains m fn = true
  ∧ ∃ fn', x.Functions_Get m (x.FName fn) = (Some fn', true)
           ∧ key_of fn' = key_of fn.
Proof.
  intros Hm Hf Hfn. apply register_fold in Hm as (fns & Hfns & ->).
  apply mapM_Ok_Forall2 in Hfns.
  assert (Hin : fn ∈ fns).
  { apply list_elem_of_lookup in Hf as [i Hi].
    destruct (Forall2_lookup_l _ _ _ _ _ Hfns Hi) as (fn' & Hi' & Hfn').
    rewrite Hfn in Hfn'. injection Hfn' as <-. by eapply list_elem_of_lookup_2. }
  destruct (fold_insert_found fns ∅ fn Hin) as (fn' & Hl & Hk).
  unfold x.Contains, x.Functions_Has, x.Functions_Get.
  change (ToUpper (x.FName fn)) with (key_of fn).
  rewrite Hl. split; [done|]. split; [done|]. by exists fn'.
Qed.

Lemma X1_registered_functions_are_found_witness :
  ∃ m fn, x.NewFunctions (main_go Runs_src) [Run1_fn; run_lower_fn] = Ok m
          ∧ x.NewFunction (main_go Runs_src) Run1_fn = Ok fn
          ∧ x.Functions_Has m (x.FName fn) = true
          ∧ x.Contains m fn = true.
Proof.
  eexists _, _. split; [reflexivity|]. split; [reflexivity|].
  destruct (X1_registered_functions_are_found (main_go Runs_src)
              [Run1_fn; run_lower_fn] _ Run1_fn _ eq_refl
              ltac:(left) eq_refl) as (H1 & H2 & _).
  exact (conj H1 H2).
Defined.

(** X2. A registry holds nothing but descriptors of the functions it was
    built from, each under its upper-cased name, so it has at most as many
    entries as functions were given; a key that no given function has is
    not found by [Get], [Fetch] or [Has]; and [Functions.Set] gives the
    same registry whatever the receiver held before. *)
Theorem X2_registry_holds_only_registered (fs : FileSystem) (l : list GoFunc)
    (m : gmap string x.Function) :
  x.NewFunctions fs l = Ok m →
  (∀ key fn, x.Functions_Get m key = (Some fn, true) →
     ∃ f, f ∈ l ∧ x.NewFunction fs f = Ok fn ∧ key_of fn = ToUpper key)
  ∧ size m ≤ length l
  ∧ (∀ key, (∀ f fn, f ∈ l → x.NewFunction fs f = Ok fn → key_of fn ≠ ToUpper key) →
       x.Functions_Get m key = (None, false)
       ∧ x.Functions_Fetch m key = None
       ∧ x.Functions_Has m key = false)
  ∧ ∀ old, x.Functions_Set old fs l = Ok m.
Proof.
  intros Hm. pose proof Hm as Hm'.
  apply register_fold in Hm as (fns & Hfns & ->).
  apply mapM_Ok_Forall2 in Hfns.
  assert (Hfrom : ∀ key fn,
    fold_left (λ acc fn, <[key_of fn := fn]> acc) fns (∅ : gmap string x.Function)
      !! ToUpper key = Some fn →
    ∃ f, f ∈ l ∧ x.NewFunction fs f = Ok fn ∧ key_of fn = ToUpper key).
  { intros key fn Hl. apply fold_insert_lookup in Hl as [[Hin Hk]|Hl]; [|done].
    apply list_elem_of_lookup in Hin as [i Hi].
    destruct (Forall2_lookup_r _ _ _ _ _ Hfns Hi) as (f & Hf & Hfn).
    exists f. split; [by eapply list_elem_of_lookup_2|done]. }
  split; [|split; [|split]].
  - intros key fn. unfold x.Functions_Get.
    destruct (_ !! ToUpper key) as [fn'|] eqn:E; [|done].
    intros [= <-]. by apply Hfrom.
  - etransitivity; [apply fold_insert_size|].
    rewrite map_size_empty. apply Forall2_length in Hfns. lia.
  - intros key Hnone. unfold x.Functions_Has, x.Functions_Fetch, x.Functions_Get.
    destruct (_ !! ToUpper key) as [fn'|] eqn:E; [|done].
    destruct (Hfrom _ _ E) as (f & Hf & Hfn & Hk). by destruct (Hnone f fn').
  - done.
Qed.

Lemma X2_registry_holds_only_registered_witness :
  ∃ m, x.NewFunctions (main_go Runs_src) [Run1_fn; run_lower_fn] = Ok m
       ∧ size m ≤ 2
       ∧ x.Functions_Get m "build" = (None, false).
Proof.
  eexists. split; [reflexivity|].
  destruct (X2_registry_holds_only_registered (main_go Runs_src)
              [Run1_fn; run_lower_fn] _ eq_refl) as (_ & Hsize & Hmiss & _).
  split; [exact Hsize|].
  refine (proj1 (Hmiss "build" _)).
  intros f fn Hf Hfn.
  apply elem_of_cons in Hf as [->|Hf];
    [|apply list_elem_of_singleton in Hf as ->];
    vm_compute in Hfn; injection Hfn as <-; by vm_compute.
Defined.

Lemma register_total (fs : FileSystem) (l : list GoFunc) (m : gmap string x.Function) :
  Forall (builds_in fs) l → ∃ m', x.register fs m l = Ok m'.
Proof.
  intros Hl. revert m. induction Hl as [|f l [fn Hfn] _ IH]; intros m; simpl.
  - by exists m.
  - rewrite Hfn. simpl. apply IH.
Qed.

(** X3. A registry is built exactly when every given function can be
    built; otherwise [NewFunctions], and [NewRunner] with it, panic as the
    first function that cannot be built does, and no registry is
    returned. *)
Theorem X3_registry_all_or_nothing (fs : FileSystem) (l : list GoFunc) :
  ((∃ m, x.NewFunctions fs l = Ok m) ↔ Forall (builds_in fs) l)
  ∧ ∀ l1 f l2 p,
      l = l1 ++ f :: l2 → Forall (builds_in fs) l1 → x.NewFunction fs f = Panic p →
      x.NewFunctions fs l = Panic p ∧ x.NewRunner fs l = Panic p.
Proof.
  split.
  - split.
    + intros [m Hm]. apply register_fold in Hm as (fns & Hfns & _).
      apply mapM_Ok_Forall2 in Hfns.
      apply Forall_forall. intros f Hf.
      apply list_elem_of_lookup in Hf as [i Hi].
      destruct (Forall2_lookup_l _ _ _ _ _ Hfns Hi) as (fn & _ & Hfn). by exists fn.
    + intros Hl. by apply register_total.
  - intros l1 f l2 p -> Hl1 Hf.
    assert (H : x.NewFunctions fs (l1 ++ f :: l2) = Panic p).
    { unfold x.NewFunctions. rewrite register_app.
      destruct (register_total fs l1 ∅ Hl1) as [m1 ->]. simpl. by rewrite Hf. }
    split; [done|]. unfold x.NewRunner. by rewrite H.
Qed.

Lemma X3_registry_all_or_nothing_witness :
  x.NewFunctions (main_go Runs_src) [Run1_fn; Gone_fn; run_lower_fn]
  = Panic ReadFileError
  ∧ x.NewRunner (main_go Runs_src) [Run1_fn; Gone_fn; run_lower_fn]
    = Panic ReadFileError.
Proof.
  refine (proj2 (X3_registry_all_or_nothing (main_go Runs_src)
                   [Run1_fn; Gone_fn; run_lower_fn])
            [Run1_fn] Gone_fn [run_lower_fn] ReadFileError eq_refl _ eq_refl).
  constructor; [|constructor]. eexists. reflexivity.
Defined.

(** ** Keys and the case of letters *)

Lemma to_upper_to_lower (c : ascii) : to_upper (to_lower c) = to_upper c.
Proof. destruct c as [[] [] [] [] [] [] [] []]; reflexivity. Qed.

Lemma to_upper_to_upper (c : ascii) : to_upper (to_upper c) = to_upper c.
Proof. destruct c as [[] [] [] [] [] [] [] []]; reflexivity. Qed.

Lemma ToUpper_ToLower (s : string) : ToUpper (ToLower s) = ToUpper s.
Proof.
  unfold ToUpper, ToLower. induction s as [|c s IH]; [done|].
  simpl. by rewrite to_upper_to_lower, IH.
Qed.

Lemma ToUpper_ToUpper (s : string) : ToUpper (ToUpper s) = ToUpper s.
Proof.
  unfold ToUpper. induction s as [|c s IH]; [done|].
  simpl. by rewrite to_upper_to_upper, IH.
Qed.

(** X4. The lookups of the registry and the test of an argument's type
    do not tell the upper and lower case of ASCII letters in their key
    apart: a key, its lower-cased and its upper-cased form give the same
    answer, the same descriptor and the same output. *)
Theorem X4_keys_ignore_case (m : gmap string x.Function) (arg : x.Arg)
    (key : string) (out : list string) :
  x.Functions_Get m (ToLower key) = x.Functions_Get m key
  ∧ x.Functions_Get m (ToUpper key) = x.Functions_Get m key
  ∧ x.Functions_Has m (ToLower key) = x.Functions_Has m key
  ∧ x.Functions_Has m (ToUpper key) = x.Functions_Has m key
  ∧ x.Functions_Fetch m (ToLower key) = x.Functions_Fetch m key
  ∧ x.Functions_Fetch m (ToUpper key) = x.Functions_Fetch m key
  ∧ x.Arg_Is arg (ToLower key) out = x.Arg_Is arg key out
  ∧ x.Arg_Is arg (ToUpper key) out = x.Arg_Is arg key out.
Proof.
  unfold x.Functions_Has, x.Functions_Fetch, x.Functions_Get, x.Arg_Is, x.Argument_Is.
  rewrite ToUpper_ToLower, ToUpper_ToUpper.
  repeat split; by destruct (x.Argument_ arg).
Qed.

(** ** Descriptors of package x, argument by argument *)

Lemma registry_entry_built (fs : FileSystem) (l : list GoFunc)
    (m : gmap string x.Function) (k : string) (fn : x.Function) :
  x.NewFunctions fs l = Ok m → m !! k = Some fn →
  ∃ f, f ∈ l ∧ x.NewFunction fs f = Ok fn ∧ key_of fn = k.
Proof.
  intros Hm Hl. apply register_fold in Hm as (fns & Hfns & ->).
  apply mapM_Ok_Forall2 in Hfns.
  apply fold_insert_lookup in Hl as [[Hin Hk]|Hl]; [|done].
  apply list_elem_of_lookup in Hin as [i Hi].
  destruct (Forall2_lookup_r _ _ _ _ _ Hfns Hi) as (f & Hf & Hfn).
  exists f. split; [by eapply list_elem_of_lookup_2|done].
Qed.

(** The [j]-th argument that the loop of [NewArguments] builds from index
    [i] on comes from the [j]-th segment and the [(i+j)]-th reflected
    type. *)
Lemma x_NewArguments_from_lookup (i : nat) (reflection : GoFunc) (pointer : Z)
    (variadic : bool) (parameters : list string) (arguments : x.Arguments)
    (j : nat) (a : option x.Argument) :
  x.NewArguments_from i reflection pointer variadic parameters = Ok arguments →
  arguments !! j = Some a →
  ∃ t seg name,
    In reflection !! (i + j) = Some t
    ∧ parameters !! j = Some seg
    ∧ first_of (Split seg space) = Ok name
    ∧ a = Some (x.NewArgument name (TString t) (Z.of_nat (i + j)) pointer variadic
                  (TKind t)).
Proof.
  revert i arguments j. induction parameters as [|parameter rest IH];
    intros i arguments j; simpl.
  - intros [= <-]. by rewrite lookup_nil.
  - unfold TypeIn. destruct (In reflection !! i) as [t|] eqn:Et; simpl; [|done].
    destruct (first_of (Split parameter space)) as [name|p] eqn:En; simpl; [|done].
    destruct (x.NewArguments_from (S i) reflection pointer variadic rest)
      as [args|p] eqn:E; simpl; [|done].
    intros [= <-]. destruct j as [|j]; simpl.
    + intros [= <-]. exists t, parameter, name. by rewrite Nat.add_0_r.
    + intros Hj. destruct (IH _ _ _ E Hj) as (t' & seg & name' & Ht' & Hseg & Hn & ->).
      exists t', seg, name'. by replace (i + S j) with (S i + j) by lia.
Qed.

(** What [x.NewFunction] makes of a function, field by field. *)
Lemma x_NewFunction_fields (fs : FileSystem) (f : GoFunc) (fn : x.Function) :
  x.NewFunction fs f = Ok fn →
  ∃ line,
    SourceLine fs (File f) (Line f) = Ok line
    ∧ x.NewArguments f (Entry f) (IsVariadic f) (parsed_parameters line)
      = Ok (x.FArguments fn)
    ∧ x.F fn = f
    ∧ x.FPointer fn = Entry f
    ∧ x.FVariadic fn = IsVariadic f
    ∧ x.FName fn = after_last_dot (Base (Symbol f))
    ∧ x.Length fn = Z.of_nat (length (x.FArguments fn))
    ∧ x.Empty fn = bool_decide (x.FArguments fn = []).
Proof.
  unfold x.NewFunction, x.NewDeconstruct, x.NewParameters.
  rewrite strip_qualifiers_after_last_dot by done. simpl.
  destruct (SourceLine fs (File f) (Line f)) as [line|p]; simpl; [|done].
  replace (match FindParenthesised line with
           | Some m => Ok (Split m comma)
           | None => Ok []
           end) with (Ok (A := list string) (parsed_parameters line))
    by (unfold parsed_parameters; by destruct (FindParenthesised line)).
  simpl.
  destruct (x.NewArguments f (Entry f) (IsVariadic f) (parsed_parameters line))
    as [args|p] eqn:E; simpl; [|done].
  intros [= <-]. simpl. exists line. repeat split; try done.
  by destruct args.
Qed.

Lemma strip_brackets_interface :
  ToUpper (strip_brackets "[]interface {}") ≠ ToUpper "interface".
Proof. by vm_compute. Qed.

(** X5. From a runner that [NewRunner] built, [Runner.Get] never returns
    a callable.  When it returns, the callable is nil and [ok] tells
    whether the key is registered; it panics, on the type assertion, only
    for a registered function whose type is not [func(...interface{})].
    So a function that has that very type is answered with nil and
    true. *)
Theorem X5_dispatch_never_yields_a_callable (fs : FileSystem) (l : list GoFunc)
    (runner : x.Runner) (key : string) (out : list string) :
  x.NewRunner fs l = Ok runner →
  match x.Runner_Get runner key out with
  | (Ok (f, ok), _) =>
      f = None ∧ ok = snd (x.Functions_Get (x.Functions runner) key)
  | (Panic p, _) =>
      p = TypeAssertion
      ∧ ∃ fn, x.Functions_Get (x.Functions runner) key = (Some fn, true)
              ∧ x.is_variadic_any (x.F fn) = false
  end.
Proof.
  unfold x.NewRunner.
  destruct (x.NewFunctions fs l) as [m|p] eqn:Hm; simpl; [|done].
  intros [= <-]. simpl. unfold x.Runner_Get, x.Functions_Get. simpl.
  destruct (m !! ToUpper key) as [fn|] eqn:Hk; [|done].
  destruct (registry_entry_built _ _ _ _ _ Hm Hk) as (f & _ & Hfn & _).
  destruct (x_NewFunction_fields _ _ _ Hfn) as (line & _ & Hargs & HF & _ & HV & _).
  unfold mbind, Go_bind, mret, Go_ret, lift. simpl.
  destruct (x.FVariadic fn); [|done].
  destruct (x.FArguments fn) as [|a0 args] eqn:Ea; [done|].
  assert (H0 : (a0 :: args) !! 0 = Some a0) by done.
  destruct (x_NewArguments_from_lookup _ _ _ _ _ _ _ _ Hargs H0)
    as (t & seg & name & Ht & _ & _ & ->).
  simpl. unfold Println. simpl.
  case_bool_decide as Hgate; [|done].
  unfold x.assert_variadic_any. rewrite HF.
  destruct (x.is_variadic_any f) eqn:Hany.
  - exfalso. unfold x.is_variadic_any in Hany.
    apply andb_true_iff in Hany as [[_ Hin]%andb_true_iff _].
    simpl in Ht. destruct (In f) as [|t' [|]]; try done.
    apply bool_decide_eq_true in Hin. injection Ht as ->.
    rewrite Hin in Hgate. by apply strip_brackets_interface.
  - split; [done|]. exists fn. by rewrite HF.
Qed.

Lemma X5_dispatch_never_yields_a_callable_witness :
  ∃ runner, x.NewRunner (main_go Run1_src) [Run1_fn] = Ok runner
            ∧ x.is_variadic_any Run1_fn = true
            ∧ fst (x.Runner_Get runner "run" []) = Ok (None, true).
Proof.
  eexists. split; [reflexivity|]. split; [reflexivity|].
  pose proof (X5_dispatch_never_yields_a_callable (main_go Run1_src) [Run1_fn]
                _ "run" [] eq_refl) as H.
  destruct (x.Runner_Get _ "run" []) as [[[f ok]|p] out'] eqn:E.
  - destruct H as [-> ->]. reflexivity.
  - vm_compute in E. discriminate E.
Defined.

(** X6. [Runner.Get] is not silent: it writes one line to standard output,
    the bracket-stripped type of the first argument, exactly when the key
    is registered to a variadic function whose first argument is there;
    in every other case it writes nothing. *)
Theorem X6_dispatch_output (runner : x.Runner) (key : string) (out : list string) :
  snd (x.Runner_Get runner key out)
  = out ++ match x.Functions runner !! ToUpper key with
           | Some fn =>
               if x.FVariadic fn then
                 match x.FArguments fn with
                 | Some a :: _ => [x.Value a]
                 | _ => []
                 end
               else []
           | None => []
           end.
Proof.
  unfold x.Runner_Get, x.Functions_Get.
  destruct (x.Functions runner !! ToUpper key) as [fn|]; simpl;
    [|by rewrite app_nil_r].
  unfold mbind, Go_bind, mret, Go_ret, lift. simpl.
  destruct (x.FVariadic fn); [|by rewrite app_nil_r].
  destruct (x.FArguments fn) as [|[a|] args]; simpl; try by rewrite app_nil_r.
  unfold Println. simpl.
  case_bool_decide; [|done].
  unfold x.assert_variadic_any. by destruct (x.is_variadic_any (x.F fn)).
Qed.

Lemma Kind_String_slice (k : Kind) : Kind_String k = "slice" ↔ k = Slice.
Proof. split; [by destruct k|by intros ->]. Qed.

Lemma strip_brackets_clean (s : string) :
  all_bytes no_brackets (strip_brackets s) = true.
Proof.
  induction s as [|c s IH]; [done|]. simpl.
  destruct (byte_eqb c "[" || byte_eqb c "]") eqn:E; [done|].
  simpl. unfold no_brackets at 1. by rewrite E, IH.
Qed.

(** The first element of [Split s sep] is the longest prefix of [s]
    without [sep]. *)
Lemma Split_first (s : string) (sep : ascii) :
  first_of (Split s sep) = Ok (fst (span (λ c, negb (byte_eqb c sep)) s)).
Proof.
  induction s as [|c s IH]; [done|]. simpl.
  destruct (byte_eqb c sep); simpl; [done|].
  destruct (span _ s) as [a b]. destruct (Split s sep) as [|t ts]; simpl in *.
  - by pose proof (Split_not_nil s sep).
  - by injection IH as ->.
Qed.

Lemma span_prefix_all (q : ascii → bool) (s : string) :
  all_bytes q (fst (span q s)) = true.
Proof.
  induction s as [|c s IH]; [done|]. simpl.
  destruct (q c) eqn:Ec; [|done].
  destruct (span q s) as [a b]. simpl in *. by rewrite Ec, IH.
Qed.

(** X7. A descriptor of package x records its function: the value, its
    entry address and its variadic flag; [Length] counts the arguments and
    [Empty] tells that there is none.  The arguments are never nil and
    never more than the reflected parameters; the one at index [j] has
    position [j], the function's address, the kind of the [j]-th
    reflected type and its type string without brackets, is a slice
    exactly when that kind is [slice], and a pointer exactly when the
    type string holds a star. *)
Theorem X7_x_descriptor_fields (fs : FileSystem) (f : GoFunc) (fn : x.Function) :
  x.NewFunction fs f = Ok fn →
  x.F fn = f
  ∧ x.FPointer fn = Entry f
  ∧ x.FVariadic fn = IsVariadic f
  ∧ x.Length fn = Z.of_nat (length (x.FArguments fn))
  ∧ (x.Empty fn = true ↔ x.FArguments fn = [])
  ∧ length (x.FArguments fn) ≤ NumIn f
  ∧ ∀ j a, x.FArguments fn !! j = Some a →
      ∃ a' t, a = Some a'
              ∧ In f !! j = Some t
              ∧ x.Position a' = Z.of_nat j
              ∧ x.Address a' = Entry f
              ∧ x.Kind_ a' = TKind t
              ∧ x.Value a' = strip_brackets (TString t)
              ∧ all_bytes no_brackets (x.Value a') = true
              ∧ (x.Slice_ a' = true ↔ TKind t = Slice)
              ∧ (x.Pointer_ a' = true ↔ (0 ≤ Index (TString t) star)%Z).
Proof.
  intros Hfn.
  destruct (x_NewFunction_fields _ _ _ Hfn)
    as (line & _ & Hargs & HF & HP & HV & _ & HL & HE).
  assert (Hlookup : ∀ j a, x.FArguments fn !! j = Some a →
            ∃ t seg name, In f !! j = Some t ∧ parsed_parameters line !! j = Some seg
              ∧ first_of (Split seg space) = Ok name
              ∧ a = Some (x.NewArgument name (TString t) (Z.of_nat j) (Entry f)
                            (IsVariadic f) (TKind t))).
  { intros j a Hj. by apply (x_NewArguments_from_lookup _ _ _ _ _ _ _ _ Hargs Hj). }
  split; [done|]. split; [done|]. split; [done|]. split; [done|]. split; [|split].
  - rewrite HE. by rewrite bool_decide_eq_true.
  - destruct (decide (length (x.FArguments fn) ≤ NumIn f)) as [|Hgt]; [done|].
    destruct (lookup_lt_is_Some_2 (x.FArguments fn) (NumIn f)) as [a Ha]; [lia|].
    destruct (Hlookup _ _ Ha) as (t & _ & _ & Ht & _).
    apply lookup_lt_Some in Ht. unfold NumIn in *. lia.
  - intros j a Hj. destruct (Hlookup _ _ Hj) as (t & seg & name & Ht & _ & _ & ->).
    eexists _, t. split; [reflexivity|]. simpl.
    split; [done|]. split; [done|]. split; [done|]. split; [done|]. split; [done|].
    split; [apply strip_brackets_clean|]. split.
    + rewrite <- Kind_String_slice. by destruct (decide _).
    + rewrite negb_true_iff, Z.eqb_neq.
      destruct (Index_range (TString t) star); lia.
Qed.

Lemma X7_x_descriptor_fields_witness :
  ∃ fn, x.NewFunction (main_go Run2_src) Run2_fn = Ok fn
        ∧ x.Length fn = 2%Z
        ∧ length (x.FArguments fn) ≤ 2.
Proof.
  eexists. split; [reflexivity|].
  destruct (X7_x_descriptor_fields (main_go Run2_src) Run2_fn _ eq_refl)
    as (_ & _ & _ & HL & _ & Hlen & _).
  split; [exact HL|exact Hlen].
Defined.

(** ** Parameter names *)

(** X8. In package x the name of an argument is the text of its segment
    up to the first space: it holds no space and is a prefix of the
    segment.  A segment is not trimmed first, so the name is empty for
    every segment that starts with a space, as the segments after a comma
    and a space do. *)
Theorem X8_x_parameter_names (fs : FileSystem) (f : GoFunc) (fn : x.Function)
    (line : string) (j : nat) (a : x.Argument) (seg : string) :
  x.NewFunction fs f = Ok fn →
  SourceLine fs (File f) (Line f) = Ok line →
  x.FArguments fn !! j = Some (Some a) →
  parsed_parameters line !! j = Some seg →
  x.Name a = fst (span not_space seg)
  ∧ all_bytes not_space (x.Name a) = true
  ∧ (∃ rest, seg = x.Name a +:+ rest)
  ∧ (∀ rest, seg = String space rest → x.Name a = EmptyString).
Proof.
  intros Hfn Hline Hj Hseg.
  destruct (x_NewFunction_fields _ _ _ Hfn) as (line' & Hline' & Hargs & _).
  rewrite Hline in Hline'. injection Hline' as <-.
  destruct (x_NewArguments_from_lookup _ _ _ _ _ _ _ _ Hargs Hj)
    as (t & seg' & name & _ & Hseg' & Hname & Ha).
  rewrite Hseg in Hseg'. injection Hseg' as <-. injection Ha as ->. simpl.
  rewrite Split_first in Hname. injection Hname as Hname.
  change (fst (span not_space seg) = name) in Hname. subst name.
  split; [done|]. split; [apply span_prefix_all|]. split.
  - destruct (span not_space seg) as [n r] eqn:E. exists r. simpl.
    by apply span_app_eq in E.
  - by intros rest ->.
Qed.

Lemma X8_x_parameter_names_witness :
  ∃ a, x.Name a = EmptyString
       ∧ (∃ fn, x.NewFunction (main_go Build_src) Build_fn = Ok fn
                ∧ x.FArguments fn !! 1 = Some (Some a)).
Proof.
  eexists. split.
  - refine (proj2 (proj2 (proj2
      (X8_x_parameter_names (main_go Build_src) Build_fn _
         "func Build(target string, force bool) {" 1 _ " force bool"
         eq_refl eq_refl eq_refl eq_refl))) "force bool" eq_refl).
  - eexists. split; reflexivity.
Defined.

Lemma mapM_Ok_lookup {A B} (g : A → Result B) (l : list A) (bs : list B)
    (j : nat) (b : B) :
  mapM g l = Ok bs → bs !! j = Some b → ∃ a, l !! j = Some a ∧ g a = Ok b.
Proof.
  intros H%mapM_Ok_Forall2 Hj.
  destruct (Forall2_lookup_r _ _ _ _ _ H Hj) as (a & Ha & Hg). by exists a.
Qed.

(** What [cli.NewFunction] makes of a function, field by field. *)
Lemma cli_NewFunction_fields (fs : FileSystem) (f : GoFunc) (fn : cli.Function) :
  cli.NewFunction fs f = Ok fn →
  ∃ line,
    SourceLine fs (File f) (Line f) = Ok line
    ∧ match FindParenthesised line with
      | Some m => cli.build_arguments (Entry f) (Split m comma) f
      | None => Ok []
      end = Ok (cli.FArguments fn)
    ∧ cli.F fn = f
    ∧ cli.FLine fn = Line f
    ∧ cli.Path fn = File f
    ∧ cli.FPointer fn = Entry f
    ∧ cli.FName fn = cli.displayName (Symbol f)
    ∧ cli.FVaradict fn = IsVariadic f.
Proof.
  unfold cli.NewFunction.
  destruct (SourceLine fs (File f) (Line f)) as [line|p]; simpl; [|done].
  destruct (match FindParenthesised line with
            | Some m => cli.build_arguments (Entry f) (Split m comma) f
            | None => Ok []
            end) as [args|p] eqn:E; simpl; [|done].
  intros [= <-]. by exists line.
Qed.

Lemma cli_argument_lookup (fs : FileSystem) (f : GoFunc) (fn : cli.Function)
    (j : nat) (a : cli.Argument) :
  cli.NewFunction fs f = Ok fn →
  cli.FArguments fn !! j = Some a →
  ∃ line t seg name,
    SourceLine fs (File f) (Line f) = Ok line
    ∧ In f !! j = Some t
    ∧ parsed_parameters line !! j = Some seg
    ∧ first_of (Split (TrimSpace seg) space) = Ok name
    ∧ a = {| cli.Kind_ := TKind t;
             cli.Parameter_ := seg;
             cli.Pointer_ := Entry f;
             cli.Position := Z.of_nat j;
             cli.Name := name;
             cli.Slice_ := if decide (Kind_String (TKind t) = "slice") then true else false;
             cli.Value := strip_brackets (TString t);
             cli.Varadict := IsVariadic f |}.
Proof.
  intros Hfn Hj.
  destruct (cli_NewFunction_fields _ _ _ Hfn) as (line & Hline & Hargs & _).
  exists line. unfold parsed_parameters.
  destruct (FindParenthesised line) as [m|];
    [|injection Hargs as Hargs; by rewrite <- Hargs, lookup_nil in Hj].
  destruct (mapM_Ok_lookup _ _ _ _ _ Hargs Hj) as (i & Hi & Ha).
  apply lookup_seq in Hi as [-> _]. simpl in Ha.
  destruct (Split m comma !! j) as [seg|]; [|done].
  unfold cli.NewArgument, TypeIn in Ha.
  destruct (In f !! j) as [t|]; simpl in Ha; [|done].
  destruct (first_of (Split (TrimSpace seg) space)) as [name|p] eqn:En; simpl in Ha; [|done].
  injection Ha as <-. by exists t, seg, name.
Qed.



Lemma byte_eqb_space_is_space (c : ascii) : byte_eqb c space = true → is_space c = true.
Proof. unfold byte_eqb. by intros ->%Ascii.eqb_eq. Qed.

Lemma trim_left_head (s : string) :
  trim_left s = EmptyString
  ∨ ∃ c r, trim_left s = String c r ∧ is_space c = false.
Proof.
  induction s as [|c s IH]; [by left|]. simpl.
  destruct (is_space c) eqn:Ec; [done|]. right. by exists c, s.
Qed.

Lemma trim_right_head (c : ascii) (s : string) :
  is_space c = false → ∃ r, trim_right (String c s) = String c r.
Proof.
  intros Hc. simpl. rewrite Hc. destruct (trim_right s); by eexists.
Qed.

Lemma TrimSpace_head (s : string) :
  TrimSpace s = EmptyString
  ∨ ∃ c r, TrimSpace s = String c r ∧ is_space c = false.
Proof.
  unfold TrimSpace. destruct (trim_left_head s) as [->|(c & r & -> & Hc)]; [by left|].
  right. destruct (trim_right_head c r Hc) as [r' ->]. by exists c, r'.
Qed.

(** X10. In package cli the name of an argument is the text of its
    trimmed segment up to the first space: it holds no space, and it is
    not empty unless the segment is blank.  The argument keeps the
    segment as it was parsed. *)
Theorem X10_cli_parameter_names (fs : FileSystem) (f : GoFunc) (fn : cli.Function)
    (line : string) (j : nat) (a : cli.Argument) (seg : string) :
  cli.NewFunction fs f = Ok fn →
  SourceLine fs (File f) (Line f) = Ok line →
  cli.FArguments fn !! j = Some a →
  parsed_parameters line !! j = Some seg →
  cli.Parameter_ a = seg
  ∧ cli.Name a = fst (span not_space (TrimSpace seg))
  ∧ all_bytes not_space (cli.Name a) = true
  ∧ (TrimSpace seg ≠ EmptyString → cli.Name a ≠ EmptyString).
Proof.
  intros Hfn Hline Hj Hseg.
  destruct (cli_argument_lookup _ _ _ _ _ Hfn Hj)
    as (line' & t & seg' & name & Hline' & _ & Hseg' & Hname & ->).
  rewrite Hline in Hline'. injection Hline' as <-.
  rewrite Hseg in Hseg'. injection Hseg' as <-. simpl.
  rewrite Split_first in Hname. injection Hname as Hname.
  change (fst (span not_space (TrimSpace seg)) = name) in Hname. subst name.
  split; [done|]. split; [done|]. split; [apply span_prefix_all|].
  intros Hne. destruct (TrimSpace_head seg) as [E|(c & r & -> & Hc)]; [done|].
  simpl. unfold not_space at 1.
  destruct (byte_eqb c space) eqn:Ec.
  - apply byte_eqb_space_is_space in Ec. congruence.
  - simpl. by destruct (span not_space r).
Qed.

Lemma X10_cli_parameter_names_witness :
  ∃ a, cli.Name a = "force"
       ∧ cli.Parameter_ a = " force bool"
       ∧ (∃ fn, cli.NewFunction (main_go Build_src) Build_fn = Ok fn
                ∧ cli.FArguments fn !! 1 = Some a).
Proof.
  eexists. split; [|split].
  - refine (proj1 (proj2
      (X10_cli_parameter_names (main_go Build_src) Build_fn _
         "func Build(target string, force bool) {" 1 _ " force bool"
         eq_refl eq_refl eq_refl eq_refl))).
  - reflexivity.
  - eexists. split; reflexivity.
Defined.

(** ** The source line and its parenthesised list *)

Lemma span_stop (q : ascii → bool) (a : string) (c : ascii) (b : string) :
  all_bytes q a = true → q c = false → span q (a +:+ String c b) = (a, String c b).
Proof.
  intros Ha Hc. induction a as [|d a IH].
  - change (span q (String c b) = (EmptyString, String c b)). simpl. by rewrite Hc.
  - simpl in Ha. apply andb_true_iff in Ha as [Hd Ha].
    rewrite app_cons. simpl. by rewrite Hd, (IH Ha).
Qed.

Lemma FindParenthesised_sound (line m : string) :
  FindParenthesised line = Some m →
  m ≠ EmptyString
  ∧ all_bytes not_paren m = true
  ∧ ∃ before after, line = before +:+ "(" +:+ m +:+ ")" +:+ after.
Proof.
  induction line as [|c line IH]; [done|]. simpl.
  assert (Hrec : FindParenthesised line = Some m →
            m ≠ EmptyString ∧ all_bytes not_paren m = true
            ∧ ∃ before after, String c line = before +:+ "(" +:+ m +:+ ")" +:+ after).
  { intros H. destruct (IH H) as (Hne & Hm & before & after & ->).
    split; [done|]. split; [done|]. by exists (String c before), after. }
  destruct (byte_eqb c lparen) eqn:Ec; [|done].
  destruct (span not_paren line) as [body rest] eqn:Es.
  destruct body as [|b body]; [done|]. destruct rest as [|d rest]; [done|].
  destruct (byte_eqb d rparen) eqn:Ed; [|done].
  intros [= <-]. split; [done|]. split.
  - pose proof (span_prefix_all not_paren line) as H. by rewrite Es in H.
  - exists EmptyString, rest. apply span_app_eq in Es. rewrite Es.
    unfold byte_eqb in Ec, Ed. apply Ascii.eqb_eq in Ec, Ed. by subst c d.
Qed.

Lemma FindParenthesised_complete (before m after : string) :
  m ≠ EmptyString → all_bytes not_paren m = true →
  FindParenthesised (before +:+ "(" +:+ m +:+ ")" +:+ after) ≠ None.
Proof.
  intros Hne Hm. induction before as [|c before IH].
  - change (FindParenthesised (String lparen (m +:+ String rparen after)) ≠ None).
    simpl. rewrite (span_stop not_paren m rparen after Hm) by done.
    by destruct m.
  - rewrite app_cons. simpl.
    destruct (byte_eqb c lparen); [|done].
    destruct (span not_paren _) as [[|b body] [|d rest]]; try done.
    by destruct (byte_eqb d rparen).
Qed.

(** X11. The text both packages take the parameter names from is the
    first non-empty stretch without parentheses that stands between an
    opening and a closing parenthesis on the source line: when there is
    one, it is found, it is not empty, holds no parenthesis and stands
    between parentheses on the line; when none is found, the line has no
    such stretch. *)
Theorem X11_parenthesised_list (line : string) :
  (∀ m, FindParenthesised line = Some m →
     m ≠ EmptyString
     ∧ all_bytes not_paren m = true
     ∧ ∃ before after, line = before +:+ "(" +:+ m +:+ ")" +:+ after)
  ∧ (FindParenthesised line = None →
     ∀ before m after,
       m ≠ EmptyString → all_bytes not_paren m = true →
       line ≠ before +:+ "(" +:+ m +:+ ")" +:+ after).
Proof.
  split.
  - intros m. apply FindParenthesised_sound.
  - intros Hnone before m after Hne Hm ->.
    by apply (FindParenthesised_complete before m after Hne Hm).
Qed.

Lemma X11_parenthesised_list_witness :
  (∃ before after,
     "func Each(visit func(int) error, n int) {"
     = before +:+ "(" +:+ "int" +:+ ")" +:+ after)
  ∧ "func ListAll() {" ≠ "func ListAll" +:+ "(" +:+ "x" +:+ ")" +:+ " {".
Proof.
  split.
  - refine (proj2 (proj2 (proj1 (X11_parenthesised_list
      "func Each(visit func(int) error, n int) {") "int" eq_refl))).
  - refine (proj2 (X11_parenthesised_list "func ListAll() {") eq_refl
              "func ListAll" "x" " {" _ eq_refl). discriminate.
Defined.

Lemma Split_Join (s : string) (sep : ascii) :
  Join (Split s sep) (String sep EmptyString) = s.
Proof.
  induction s as [|c s IH]; [done|]. simpl.
  pose proof (Split_not_nil s sep) as Hne.
  destruct (byte_eqb c sep) eqn:Ec.
  - unfold byte_eqb in Ec. apply Ascii.eqb_eq in Ec as ->.
    destruct (Split s sep) as [|t ts]; [done|].
    rewrite Join_cons_cons, IH. done.
  - destruct (Split s sep) as [|t [|t' ts]]; [done| |].
    + simpl in *. by rewrite IH.
    + rewrite Join_cons_cons in *. rewrite app_cons. by rewrite IH.
Qed.

Lemma Split_no_sep (s : string) (sep : ascii) :
  Forall (λ t, all_bytes (λ c, negb (byte_eqb c sep)) t = true) (Split s sep).
Proof.
  induction s as [|c s IH]; [by constructor|]. simpl.
  destruct (byte_eqb c sep) eqn:Ec; [by constructor|].
  destruct (Split s sep) as [|t ts]; [by repeat constructor; simpl; rewrite Ec|].
  apply Forall_cons in IH as [Ht Hts]. constructor; [|done].
  simpl. by rewrite Ec, Ht.
Qed.

Lemma Join_all_bytes_inv (p : ascii → bool) (elems : list string) (sep : string) :
  all_bytes p (Join elems sep) = true → Forall (λ t, all_bytes p t = true) elems.
Proof.
  induction elems as [|e [|e' rest] IH]; [constructor| |].
  - intros H. by repeat constructor.
  - rewrite Join_cons_cons, !all_bytes_app.
    intros [He [_ Hrest]%andb_true_iff]%andb_true_iff. constructor; [done|by apply IH].
Qed.

(** X12. The segments that [NewParameters] returns are the parenthesised
    text cut at its commas: there is at least one, none holds a comma or
    a parenthesis, and joined with commas they give the text back.
    Without a parenthesised text on the line there is no segment. *)
Theorem X12_parameter_segments (fs : FileSystem) (file : string) (n : Z)
    (parameters : list string) :
  x.NewParameters fs file n = Ok parameters →
  ∃ line,
    SourceLine fs file n = Ok line
    ∧ parameters = parsed_parameters line
    ∧ match FindParenthesised line with
      | None => parameters = []
      | Some m =>
          parameters ≠ []
          ∧ Join parameters "," = m
          ∧ Forall (λ seg, all_bytes not_comma seg = true
                           ∧ all_bytes not_paren seg = true) parameters
      end.
Proof.
  unfold x.NewParameters, parsed_parameters.
  destruct (SourceLine fs file n) as [line|p]; simpl; [|done].
  intros H. exists line. split; [done|].
  destruct (FindParenthesised line) as [m|] eqn:Em; injection H as <-; [|done].
  split; [done|]. split; [apply Split_not_nil|]. split; [apply Split_Join|].
  destruct (FindParenthesised_sound _ _ Em) as (_ & Hm & _).
  rewrite <- (Split_Join m comma) in Hm. apply Join_all_bytes_inv in Hm.
  pose proof (Split_no_sep m comma) as Hc.
  apply Forall_forall. intros seg Hseg.
  rewrite Forall_forall in Hm, Hc. split; [by apply Hc|by apply Hm].
Qed.

Lemma X12_parameter_segments_witness :
  ∃ parameters,
    x.NewParameters (main_go Build_src) "/src/main.go" 3 = Ok parameters
    ∧ Join parameters "," = "target string, force bool".
Proof.
  eexists. split; [reflexivity|].
  destruct (X12_parameter_segments (main_go Build_src) "/src/main.go" 3 _ eq_refl)
    as (line & Hline & _ & H).
  vm_compute in Hline. injection Hline as <-.
  exact (proj1 (proj2 H)).
Defined.

(** X13. Both constructors read the source before anything else that can
    fail: for a file that cannot be read they panic with the read error,
    and for a line number below 1 or above the number of lines of the
    file they panic with an index out of range, whatever the function. *)
Theorem X13_source_errors (fs : FileSystem) (f : GoFunc) :
  (fs (File f) = None →
     cli.NewFunction fs f = Panic ReadFileError
     ∧ x.NewFunction fs f = Panic ReadFileError)
  ∧ (∀ b, fs (File f) = Some b →
       (Line f < 1 ∨ Z.of_nat (length (Split b newline)) < Line f)%Z →
       cli.NewFunction fs f = Panic IndexOutOfRange
       ∧ x.NewFunction fs f = Panic IndexOutOfRange).
Proof.
  assert (Hx : ∀ p, SourceLine fs (File f) (Line f) = Panic p →
            cli.NewFunction fs f = Panic p ∧ x.NewFunction fs f = Panic p).
  { intros p Hp. split.
    - unfold cli.NewFunction. by rewrite Hp.
    - unfold x.NewFunction, x.NewDeconstruct, x.NewParameters.
      rewrite strip_qualifiers_after_last_dot by done. simpl. by rewrite Hp. }
  split.
  - intros Hnone. apply Hx. unfold SourceLine. by rewrite Hnone.
  - intros b Hb Hline. apply Hx. unfold SourceLine, slice_index. rewrite Hb.
    destruct (Z.ltb_spec (Line f - 1) 0) as [|Hge]; [done|].
    rewrite (lookup_ge_None_2 (Split b newline)); [done|lia].
Qed.

Lemma X13_source_errors_witness :
  (cli.NewFunction (main_go Build_src) Gone_fn = Panic ReadFileError
   ∧ x.NewFunction (main_go Build_src) Gone_fn = Panic ReadFileError)
  ∧ (cli.NewFunction (main_go Build_src) Beyond_fn = Panic IndexOutOfRange
     ∧ x.NewFunction (main_go Build_src) Beyond_fn = Panic IndexOutOfRange).
Proof.
  split.
  - exact (proj1 (X13_source_errors (main_go Build_src) Gone_fn) eq_refl).
  - refine (proj2 (X13_source_errors (main_go Build_src) Beyond_fn) Build_src eq_refl _).
    right. vm_compute. reflexivity.
Defined.

(** ** Option strings *)

Lemma GetArgumentString_not_empty (a : cli.Argument) :
  cli.GetArgumentString a ≠ EmptyString.
Proof.
  unfold cli.GetArgumentString. intros H. apply (f_equal String.length) in H.
  destruct (cli.Varadict a), (cli.Slice_ a);
    rewrite !length_app_s in H; simpl in H; lia.
Qed.

Lemma Join_not_empty (e : string) (rest : list string) (sep : string) :
  e ≠ EmptyString → Join (e :: rest) sep ≠ EmptyString.
Proof.
  intros He. destruct rest as [|e' rest]; [done|].
  rewrite Join_cons_cons. by destruct e.
Qed.

Lemma ToLower_not_empty (s : string) : s ≠ EmptyString → ToLower s ≠ EmptyString.
Proof. by destruct s. Qed.

(** X14. A function is rendered as two hyphens and its name exactly when
    its descriptor has no argument; with arguments it is rendered as the
    name, a space, and in brackets the lower-cased argument strings
    joined by a comma and a space.  (The code tests the length of the
    joined text, which is never zero once there is an argument.) *)
Theorem X14_function_string (function : cli.Function) :
  (cli.FArguments function = [] →
     cli.GetFunctionString function = "--" +:+ cli.FName function)
  ∧ (cli.FArguments function ≠ [] →
     cli.GetFunctionString function
     = cli.FName function +:+ " ["
       +:+ Join (map (λ a, ToLower (cli.GetArgumentString a)) (cli.FArguments function)) ", "
       +:+ "]").
Proof.
  unfold cli.GetFunctionString. split.
  - by intros ->.
  - intros Hne. destruct (cli.FArguments function) as [|a args]; [done|].
    cbn [map].
    pose proof (Join_not_empty (ToLower (cli.GetArgumentString a))
                  (map (λ a, ToLower (cli.GetArgumentString a)) args) ", "
                  (ToLower_not_empty _ (GetArgumentString_not_empty a))) as H.
    destruct (Join _ ", ") as [|c u]; [done|]. done.
Qed.

Lemma X14_function_string_witness :
  cli.GetFunctionString (bare "main.ListAll" 4198400 3) = "--list-all"
  ∧ (∃ fn, cli.NewFunction (main_go Run2_src) Run2_fn = Ok fn
           ∧ cli.GetFunctionString fn = "run [a [...int], opts [...interface {}]]").
Proof.
  split.
  - exact (proj1 (X14_function_string (bare "main.ListAll" 4198400 3)) eq_refl).
  - eexists. split; [reflexivity|].
    refine (proj2 (X14_function_string _) _). discriminate.
Defined.

(** X15. The option string of a descriptor that [cli.NewFunction] built
    holds no upper-case ASCII letter: the display name is lower-cased when
    it is built, and every argument string when it is rendered, so a
    parameter [targetDir] is shown as [targetdir]. *)
Theorem X15_option_strings_are_lower_case (fs : FileSystem) (f : GoFunc)
    (fn : cli.Function) :
  cli.NewFunction fs f = Ok fn →
  all_bytes not_upper (cli.FName fn) = true
  ∧ all_bytes not_upper (cli.GetFunctionString fn) = true
  ∧ all_bytes not_upper (cli.option_of fn) = true.
Proof.
  intros Hfn.
  destruct (cli_NewFunction_fields _ _ _ Hfn) as (_ & _ & _ & _ & _ & _ & _ & HN & _).
  assert (Hname : all_bytes not_upper (cli.FName fn) = true).
  { rewrite HN. apply (proj1 (displayName_shape (Symbol f))). }
  assert (Hs : all_bytes not_upper (cli.GetFunctionString fn) = true).
  { unfold cli.GetFunctionString.
    assert (Hu : all_bytes not_upper
                   (Join (map (λ a, ToLower (cli.GetArgumentString a))
                            (cli.FArguments fn)) ", ") = true).
    { apply Join_all_bytes; [done|]. apply Forall_map, Forall_forall.
      intros a _. apply ToLower_not_upper. }
    destruct (negb _); rewrite !all_bytes_app, Hname; [by rewrite Hu|done]. }
  split; [done|]. split; [done|].
  unfold cli.option_of. by rewrite !all_bytes_app, Hs.
Qed.

Lemma X15_option_strings_are_lower_case_witness :
  ∃ fn, cli.NewFunction (main_go Build_src) Build_fn = Ok fn
        ∧ all_bytes not_upper (cli.option_of fn) = true.
Proof.
  eexists. split; [reflexivity|].
  exact (proj2 (proj2 (X15_option_strings_are_lower_case
                         (main_go Build_src) Build_fn _ eq_refl))).
Defined.

(** ** Wrapping, at its edges *)

Lemma delete_newlines_app (a b : string) :
  delete_newlines (a +:+ b) = delete_newlines a +:+ delete_newlines b.
Proof.
  induction a as [|c a IH]; [done|]. rewrite app_cons. simpl.
  destruct (byte_eqb c newline); [done|]. by rewrite app_cons, IH.
Qed.

Lemma delete_newlines_Join (ls : list string) :
  delete_newlines (Join ls nl) = delete_newlines (Join ls EmptyString).
Proof.
  induction ls as [|l [|l' ls] IH]; [done|done|].
  rewrite !Join_cons_cons, !delete_newlines_app, IH. done.
Qed.

Lemma words_line_app (g1 g2 : list string) :
  words_line (g1 ++ g2) = words_line g1 +:+ words_line g2.
Proof.
  induction g1 as [|w g1 IH]; [done|]. simpl. by rewrite IH, !app_assoc_s.
Qed.

Lemma words_line_concat (groups : list (list string)) :
  Join (map words_line groups) EmptyString = words_line (concat groups).
Proof.
  induction groups as [|g groups IH]; [done|].
  cbn [map concat]. by rewrite Join_empty_sep, IH, words_line_app.
Qed.

(** Every word followed by a space is the paragraph followed by a space. *)
Lemma words_line_Split (paragraph : string) :
  words_line (Split paragraph space) = paragraph +:+ " ".
Proof.
  induction paragraph as [|c s IH]; [done|]. simpl.
  destruct (byte_eqb c space) eqn:Ec.
  - unfold byte_eqb in Ec. apply Ascii.eqb_eq in Ec as ->.
    simpl. by rewrite IH.
  - pose proof (Split_not_nil s space).
    destruct (Split s space) as [|t ts]; [done|].
    simpl in IH.
    change (String c (t +:+ " " +:+ words_line ts) = String c (s +:+ " ")).
    by f_equal.
Qed.

(** X16. [WrapDescription] changes a paragraph only by adding newlines
    and one final space: with the newlines deleted, its result is the
    paragraph, with its own newlines deleted, followed by a space.  No
    word is lost, split, repeated or reordered. *)
Theorem X16_wrapping_keeps_the_text (paragraph : string) :
  delete_newlines (cli.WrapDescription paragraph)
  = delete_newlines paragraph +:+ " ".
Proof.
  destruct (WrapDescription_lines paragraph) as (broken & last & Hc & -> & _ & _).
  rewrite delete_newlines_Join, words_line_concat, Hc, words_line_Split.
  by rewrite delete_newlines_app.
Qed.

Lemma words_line_length_app (g1 g2 : list string) :
  String.length (words_line g1) ≤ String.length (words_line (g1 ++ g2)).
Proof. rewrite words_line_app, length_app_s. lia. Qed.

(** X17. A paragraph of at most 77 bytes is not wrapped: the result is
    the paragraph followed by one space, and the empty paragraph gives a
    single space. *)
Theorem X17_short_description_unwrapped (paragraph : string) :
  String.length paragraph + 1 < cli.lineLength →
  cli.WrapDescription paragraph = paragraph +:+ " ".
Proof.
  intros Hlen.
  destruct (WrapDescription_lines paragraph) as (broken & last & Hc & -> & Hb & _).
  destruct broken as [|g broken].
  - simpl in *. rewrite app_nil_r in Hc. by rewrite Hc, words_line_Split.
  - exfalso. apply Forall_inv in Hb. destruct Hb as (g' & w & _ & _ & Hge).
    pose proof (words_line_length_app g (concat (broken ++ [last]))) as Hle.
    change (g ++ concat (broken ++ [last])) with (concat ((g :: broken) ++ [last])) in Hle.
    rewrite Hc, words_line_Split, length_app_s in Hle. simpl in Hle. lia.
Qed.

Lemma X17_short_description_unwrapped_witness :
  cli.WrapDescription "" = " "
  ∧ cli.WrapDescription "emojipedia in the terminal" = "emojipedia in the terminal ".
Proof.
  split.
  - apply (X17_short_description_unwrapped ""). vm_compute. lia.
  - apply (X17_short_description_unwrapped "emojipedia in the terminal").
    vm_compute. lia.
Defined.

Lemma Join_length_app (a b : list string) (sep : string) :
  String.length (Join a sep) + String.length (Join b sep)
  ≤ String.length (Join (a ++ b) sep).
Proof.
  induction a as [|e [|e' a] IH]; [simpl; lia| |].
  - destruct b as [|e2 b]; [simpl; lia|].
    change ([e] ++ e2 :: b) with (e :: e2 :: b).
    rewrite Join_cons_cons, !length_app_s. simpl. lia.
  - change ((e :: e' :: a) ++ b) with (e :: e' :: (a ++ b)).
    rewrite !Join_cons_cons, !length_app_s.
    change (e' :: (a ++ b)) with ((e' :: a) ++ b). lia.
Qed.

Lemma wrap_all_fit (offset : nat) (functions : list cli.Function) (cur : list string) :
  offset + String.length (Join (cur ++ map cli.option_of functions) " ") < cli.lineLength →
  fold_left (cli.wrap_option offset) functions [cur]
  = [cur ++ map cli.option_of functions].
Proof.
  revert cur. induction functions as [|function functions IH]; intros cur Hfit.
  - by rewrite app_nil_r.
  - cbn [fold_left map] in *.
    replace (cur ++ cli.option_of function :: map cli.option_of functions)
      with ((cur ++ [cli.option_of function]) ++ map cli.option_of functions) in *
      by by rewrite <- app_assoc.
    change [cur] with ([] ++ [cur]). rewrite wrap_option_snoc.
    pose proof (Join_length_app (cur ++ [cli.option_of function])
                  (map cli.option_of functions) " ") as H1.
    pose proof (Join_length_app cur [cli.option_of function] " ") as H2.
    change (Join [cli.option_of function] " ") with (cli.option_of function) in H2.
    destruct (Nat.leb_spec cli.lineLength
                (String.length (Join cur " ") + offset
                 + String.length (cli.option_of function))); [lia|].
    by apply IH.
Qed.

(** X18. When the option strings of all functions, joined by single
    spaces, stay under 79 bytes together with the prefix [usage: name],
    the option block is one line: the prefix, a space, and the joined
    option strings in brackets.  Without functions it is
    [usage: name []]. *)
Theorem X18_options_on_one_line (name : string) (functions : list cli.Function) :
  String.length ("usage: " +:+ name)
  + String.length (Join (map cli.option_of functions) " ") < cli.lineLength →
  cli.WrapFunction name functions
  = "usage: " +:+ name +:+ " [" +:+ Join (map cli.option_of functions) " " +:+ "]".
Proof.
  intros Hfit.
  rewrite (WrapFunction_lines name functions (map cli.option_of functions) []).
  - unfold first_line. simpl. by rewrite !app_assoc_s.
  - unfold cli.wrap_paragraphs. by rewrite (wrap_all_fit _ functions []).
Qed.

Lemma X18_options_on_one_line_witness :
  cli.WrapFunction "emojipedia" [] = "usage: emojipedia []"
  ∧ cli.WrapFunction "emojipedia" [list_names]
    = "usage: emojipedia [[--list-every-subcategory-with-its-emoji-names]]".
Proof.
  split.
  - apply (X18_options_on_one_line "emojipedia" []). vm_compute. lia.
  - apply (X18_options_on_one_line "emojipedia" [list_names]). vm_compute. lia.
Defined.

Lemma wrap_all_overflow (offset : nat) (functions : list cli.Function)
    (ps : list (list string)) (cur : list string) :
  cli.lineLength ≤ offset →
  fold_left (cli.wrap_option offset) functions (ps ++ [cur])
  = ps ++ [cur] ++ map (λ function, [cli.option_of function]) functions.
Proof.
  intros Hlong. revert ps cur. induction functions as [|function functions IH];
    intros ps cur; [done|].
  cbn [fold_left map]. rewrite wrap_option_snoc.
  destruct (Nat.leb_spec cli.lineLength
              (String.length (Join cur " ") + offset
               + String.length (cli.option_of function))); [|lia].
  change (ps ++ [cur; [cli.option_of function]])
    with (ps ++ [cur] ++ [[cli.option_of function]]).
  rewrite app_assoc, IH. by rewrite <- !app_assoc.
Qed.

(** X19. When the prefix [usage: name] alone is 79 bytes or longer, no
    option string is put on the first line: the block is the prefix and
    an opening bracket, then every option string on a line of its own,
    and the closing bracket. *)
Theorem X19_long_program_name (name : string) (functions : list cli.Function) :
  cli.lineLength ≤ String.length ("usage: " +:+ name) →
  cli.wrap_paragraphs (String.length ("usage: " +:+ name)) functions
  = [] :: map (λ function, [cli.option_of function]) functions
  ∧ cli.WrapFunction name functions
    = Join (("usage: " +:+ name +:+ " [")
            :: map (λ function, " " +:+ cli.padding (String.length ("usage: " +:+ name))
                                +:+ cli.option_of function) functions) nl
      +:+ "]".
Proof.
  intros Hlong.
  assert (E : cli.wrap_paragraphs (String.length ("usage: " +:+ name)) functions
              = [] :: map (λ function, [cli.option_of function]) functions).
  { unfold cli.wrap_paragraphs. change [[]] with ([] ++ [@nil string]).
    by rewrite wrap_all_overflow. }
  split; [done|]. rewrite (WrapFunction_lines _ _ _ _ E).
  unfold first_line. simpl Join at 2. rewrite app_empty_r.
  by rewrite map_map.
Qed.

Lemma X19_long_program_name_witness :
  lines (cli.WrapFunction
           "emojipedia-with-a-program-name-that-fills-the-whole-line-of-the-terminal-x"
           [bare "main.ListAll" 4198400 3])
  = ["usage: emojipedia-with-a-program-name-that-fills-the-whole-line-of-the-terminal-x [";
     "                                                                                  [--list-all]]"].
Proof.
  rewrite (proj2 (X19_long_program_name
    "emojipedia-with-a-program-name-that-fills-the-whole-line-of-the-terminal-x"
    [bare "main.ListAll" 4198400 3] ltac:(vm_compute; lia))).
  reflexivity.
Defined.

(** ** Programs *)

(** X20. A program keeps its name and description and holds one
    descriptor per given function, in the order given, each the one
    [NewFunction] builds; its usage text is [WrapUse] of these.  When a
    function cannot be built, [NewProgram] panics as the first such
    function does. *)
Theorem X20_program_of_functions (fs : FileSystem) (name description : string)
    (l : list GoFunc) :
  (∀ p, cli.NewProgram fs name description l = Ok p →
     cli.PName p = name
     ∧ cli.Description p = description
     ∧ Forall2 (λ f fn, cli.NewFunction fs f = Ok fn) l (cli.PFunctions p)
     ∧ cli.Use p = cli.WrapUse name description (cli.PFunctions p))
  ∧ (∀ l1 f l2 q,
       l = l1 ++ f :: l2 → Forall (builds_in_cli fs) l1 →
       cli.NewFunction fs f = Panic q →
       cli.NewProgram fs name description l = Panic q).
Proof.
  unfold cli.NewProgram. split.
  - intros p. destruct (mapM (cli.NewFunction fs) l) as [fns|q] eqn:E; simpl; [|done].
    intros [= <-]. simpl. repeat split. by apply mapM_Ok_Forall2.
  - intros l1 f l2 q -> Hl1 Hf. by rewrite (mapM_first_Panic _ l1 l2 f q Hl1 Hf).
Qed.

Lemma X20_program_of_functions_witness :
  (∃ p, cli.NewProgram (main_go Build_src) "emojipedia" "about" [Build_fn] = Ok p
        ∧ cli.PName p = "emojipedia")
  ∧ cli.NewProgram (main_go Build_src) "emojipedia" "about" [Build_fn; Gone_fn]
    = Panic ReadFileError.
Proof.
  split.
  - eexists. split; [reflexivity|].
    exact (proj1 (proj1 (X20_program_of_functions (main_go Build_src)
                           "emojipedia" "about" [Build_fn]) _ eq_refl)).
  - refine (proj2 (X20_program_of_functions (main_go Build_src) "emojipedia" "about"
                     [Build_fn; Gone_fn]) [Build_fn] Gone_fn [] ReadFileError
              eq_refl _ eq_refl).
    constructor; [|constructor]. eexists. reflexivity.
Defined.

(** ** Names of package x *)

(** X22. The name of a descriptor of package x is what follows the last
    dot of the base name of the function's symbol, in the case it is
    written in: it holds no dot, and the registry key is its upper-cased
    form. *)
Theorem X22_x_names (fs : FileSystem) (f : GoFunc) (fn : x.Function) :
  x.NewFunction fs f = Ok fn →
  x.FName fn = after_last_dot (Base (Symbol f))
  ∧ Index (x.FName fn) dot = (-1)%Z
  ∧ key_of fn = ToUpper (after_last_dot (Base (Symbol f))).
Proof.
  intros Hfn.
  destruct (x_NewFunction_fields _ _ _ Hfn) as (_ & _ & _ & _ & _ & _ & HN & _).
  split; [done|]. split; [|by unfold key_of; rewrite HN].
  rewrite HN. apply Index_none_iff. unfold after_last_dot.
  pose proof (last_index_after (Base (Symbol f)) is_dot) as H.
  by destruct (last_index (Base (Symbol f)) is_dot).
Qed.

Lemma X22_x_names_witness :
  ∃ fn, x.NewFunction (main_go Start_src) Start_fn = Ok fn ∧ x.FName fn = "Start".
Proof.
  eexists. split; [reflexivity|].
  exact (proj1 (X22_x_names (main_go Start_src) Start_fn _ eq_refl)).
Defined.

(** ** Hyphens in display names *)

Lemma span_stop_char (q : ascii → bool) (s a : string) (d : ascii) (b : string) :
  span q s = (a, String d b) → q d = false.
Proof.
  revert a. induction s as [|c s IH]; intros a; simpl; [done|].
  destruct (q c) eqn:Ec.
  - destruct (span q s) as [a' b'] eqn:E. intros [= <- ->]. by apply (IH a').
  - by intros [= <- <- <-].
Qed.

Lemma camel_step (c : ascii) (s u r l r' : string) :
  span is_upper (String c s) = (u, r) → span not_upper r = (l, r') →
  String c s = u +:+ l +:+ r'
  ∧ String.length r' ≤ String.length s
  ∧ all_bytes is_upper u = true
  ∧ all_bytes not_upper l = true
  ∧ (r' ≠ EmptyString → l ≠ EmptyString).
Proof.
  intros Eu El.
  pose proof (span_app_eq _ _ _ _ Eu) as Hu.
  pose proof (span_app_eq _ _ _ _ El) as Hl.
  pose proof (span_prefix_all is_upper (String c s)) as Hpu. rewrite Eu in Hpu.
  pose proof (span_prefix_all not_upper r) as Hpl. rewrite El in Hpl.
  split; [by rewrite Hu, Hl|]. split; [|split; [done|split; [done|]]].
  - apply (f_equal String.length) in Hu, Hl.
    rewrite length_app_s in Hu, Hl. simpl in Hu.
    assert (0 < String.length u + String.length l); [|lia].
    simpl in Eu. destruct (is_upper c) eqn:Ec.
    + destruct (span is_upper s). injection Eu as <- <-. simpl. lia.
    + injection Eu as <- <-. simpl in El. unfold not_upper in El at 1.
      rewrite Ec in El. simpl in El. destruct (span not_upper s).
      injection El as <- <-. simpl. lia.
  - intros Hr' ->. simpl in Hl. subst r.
    destruct r' as [|d r'']; [done|].
    pose proof (span_stop_char _ _ _ _ _ Eu) as H1.
    pose proof (span_stop_char _ _ _ _ _ El) as H2.
    unfold not_upper in H2. by rewrite H1 in H2.
Qed.

Lemma hyphenate_no_boundary (c d : ascii) (y : string) :
  not_upper c && is_upper d = false →
  hyphenate (String c (String d y)) = String c (hyphenate (String d y)).
Proof. intros H. cbn [hyphenate]. by rewrite H. Qed.

Lemma hyphenate_boundary (c d : ascii) (y : string) :
  not_upper c && is_upper d = true →
  hyphenate (String c (String d y))
  = String c (String "-"%char (hyphenate (String d y))).
Proof. intros H. cbn [hyphenate]. by rewrite H. Qed.

Lemma hyphenate_head (c : ascii) (y : string) :
  ∃ z, hyphenate (String c y) = String c z.
Proof.
  destruct y as [|d y]; [by eexists|]. cbn [hyphenate].
  destruct (not_upper c && is_upper d); by eexists.
Qed.

Lemma hyphenate_upper_cons (c : ascii) (y : string) :
  is_upper c = true → hyphenate (String c y) = String c (hyphenate y).
Proof.
  intros Hc. destruct y as [|d y]; [done|].
  apply hyphenate_no_boundary. unfold not_upper. by rewrite Hc.
Qed.

Lemma not_upper_false (c : ascii) : not_upper c = true → is_upper c = false.
Proof. unfold not_upper. by destruct (is_upper c). Qed.

Lemma hyphenate_lower (l : string) : all_bytes not_upper l = true → hyphenate l = l.
Proof.
  induction l as [|c l IH]; [done|]. simpl all_bytes.
  intros [Hc Hl]%andb_true_iff. destruct l as [|d l']; [done|].
  rewrite hyphenate_no_boundary, (IH Hl); [done|].
  simpl in Hl. apply andb_true_iff in Hl as [Hd _].
  by rewrite (not_upper_false d Hd), andb_false_r.
Qed.

Lemma hyphenate_upper_app (u x : string) :
  all_bytes is_upper u = true → hyphenate (u +:+ x) = u +:+ hyphenate x.
Proof.
  induction u as [|c u IH]; [done|]. simpl all_bytes.
  intros [Hc Hu]%andb_true_iff. rewrite !app_cons.
  by rewrite hyphenate_upper_cons, (IH Hu).
Qed.

Lemma hyphenate_lower_app (l : string) (d : ascii) (b : string) :
  all_bytes not_upper l = true → l ≠ EmptyString → is_upper d = true →
  hyphenate (l +:+ String d b) = l +:+ "-" +:+ hyphenate (String d b).
Proof.
  intros Hl Hne Hd. induction l as [|c l IH]; [done|].
  simpl in Hl. apply andb_true_iff in Hl as [Hc Hl].
  destruct l as [|c' l'].
  - change (String c EmptyString +:+ String d b) with (String c (String d b)).
    rewrite hyphenate_boundary; [done|]. by rewrite Hc, Hd.
  - change (String c (String c' l') +:+ String d b)
      with (String c (String c' (l' +:+ String d b))).
    rewrite hyphenate_no_boundary.
    + change (String c' (l' +:+ String d b)) with (String c' l' +:+ String d b).
      by rewrite IH.
    + simpl in Hl. apply andb_true_iff in Hl as [Hc' _].
      by rewrite (not_upper_false c' Hc'), andb_false_r.
Qed.

Lemma camel_hyphenate (fuel : nat) (s : string) :
  String.length s ≤ fuel → s ≠ EmptyString →
  Join (camel_matches fuel s) "-" = hyphenate s.
Proof.
  revert s. induction fuel as [|fuel IH]; intros s Hlen Hne.
  - destruct s; [done|simpl in Hlen; lia].
  - destruct s as [|c s]; [done|]. cbn [camel_matches].
    destruct (span is_upper (String c s)) as [u r] eqn:Eu.
    destruct (span not_upper r) as [l r'] eqn:El.
    destruct (camel_step _ _ _ _ _ _ Eu El) as (Hs & Hr' & Hu & Hl & Hlne).
    rewrite Hs. simpl in Hlen.
    destruct r' as [|d r''].
    + replace (camel_matches fuel EmptyString) with (@nil string) by by destruct fuel.
      simpl. rewrite !app_empty_r.
      by rewrite hyphenate_upper_app, hyphenate_lower.
    + pose proof (span_stop_char _ _ _ _ _ El) as Hd.
      assert (Hd' : is_upper d = true).
      { unfold not_upper in Hd. by destruct (is_upper d). }
      assert (Hfuel : String.length (String d r'') ≤ fuel) by lia.
      assert (Hnon : String d r'' ≠ EmptyString) by discriminate.
      pose proof (IH (String d r'') Hfuel Hnon) as Hrec.
      destruct (camel_matches fuel (String d r'')) as [|t ts] eqn:Et.
      { exfalso. destruct (hyphenate_head d r'') as [z Hz].
        rewrite Hz in Hrec. discriminate Hrec. }
      rewrite Join_cons_cons, Hrec.
      rewrite hyphenate_upper_app by done.
      rewrite hyphenate_lower_app by auto.
      by rewrite !app_assoc_s.
Qed.

(** X23. The display name of package cli is the base name of the symbol
    after its first dot, with a hyphen put before every upper-case letter
    that follows a byte which is not one, and then lower-cased; a run of
    upper-case letters is not broken up. *)
Theorem X23_display_name_hyphens (symbol : string) :
  cli.displayName symbol
  = ToLower (hyphenate (from (Z.to_nat (Index (Base symbol) dot + 1)) (Base symbol))).
Proof.
  rewrite displayName_of_Base. f_equal.
  generalize (from (Z.to_nat (Index (Base symbol) dot + 1)) (Base symbol)).
  intros n. destruct (decide (n = EmptyString)) as [->|Hne]; [done|].
  pose proof (camel_hyphenate (String.length n) n (le_n _) Hne) as H.
  fold (FindAllCamel n) in H.
  destruct (FindAllCamel n) as [|t ts]; [|done].
  destruct n as [|c n]; [done|].
  destruct (hyphenate_head c n) as [z Hz]. rewrite Hz in H. discriminate H.
Qed.

(** ** The sub-command table of package get *)


